(** * Tactical Morse Comm: the transcoder and the telegraph key of [src/App.tsx]

    A shallow embedding of the logic layer of the single-page application:
    the two lookup tables [MORSE_MAP] and [REVERSE_MORSE_MAP], the pure
    functions [encodeMorse] and [decodeMorse], the audio service
    [MorseAudio] and the two event handlers [handleKeyDown] and
    [handleKeyUp] together with the timeouts they schedule.

    JavaScript strings are sequences of UTF-16 code units.  They are embedded
    as [string], one [ascii] per code unit; the embedding covers the code
    units below 128, which is where [toUpperCase] and [trim] are modelled. *)

From Stdlib Require Import String Ascii List Bool ZArith Lia.
Import ListNotations.

Local Open Scope string_scope.
Local Open Scope Z_scope.

(* ===================================================================== *)
(** ** The fragment of the JavaScript runtime the component relies on   *)
(* ===================================================================== *)

Module JS.

(** The values a property read on one of the two tables can produce: a
    string stored in the table, [undefined], or a member inherited from
    [Object.prototype] (the prototype itself, read through [__proto__], or
    one of its built-in functions). *)
Inductive value : Type :=
| VUndefined
| VString (s : string)
| VObject
| VFunction (name : string).

(** [ToBoolean]: [undefined] and the empty string are falsy; objects and
    functions are truthy. *)
Definition truthy (v : value) : bool :=
  match v with
  | VUndefined => false
  | VString s => negb (s =? "")%string
  | VObject => true
  | VFunction _ => true
  end.

(** The operator [a || b]. *)
Definition or_else (a b : value) : value := if truthy a then a else b.

(** [ToString].  A plain object is rendered by
    [Object.prototype.toString]; a built-in function by its native-code
    source text. *)
Definition ToString (v : value) : string :=
  match v with
  | VUndefined => "undefined"
  | VString s => s
  | VObject => "[object Object]"
  | VFunction name => "function " ++ name ++ "() { [native code] }"
  end.

(** [Array.prototype.join]: an [undefined] element contributes the empty
    string, any other element its [ToString]. *)
Definition join_item (v : value) : string :=
  match v with
  | VUndefined => ""
  | _ => ToString v
  end.

Definition join (sep : string) (xs : list value) : string :=
  String.concat sep (map join_item xs).

(** [String.prototype.toUpperCase] on the code units below 128: the
    letters a-z move to A-Z, every other code unit is kept. *)
Definition toUpperCase_unit (c : ascii) : ascii :=
  let n := nat_of_ascii c in
  if ((97 <=? n) && (n <=? 122))%nat then ascii_of_nat (n - 32) else c.

Fixpoint toUpperCase (s : string) : string :=
  match s with
  | EmptyString => EmptyString
  | String c rest => String (toUpperCase_unit c) (toUpperCase rest)
  end.

(** [s.split('')]: one string per code unit; the empty string gives the
    empty array. *)
Fixpoint split_units (s : string) : list string :=
  match s with
  | EmptyString => []
  | String c rest => String c EmptyString :: split_units rest
  end.

(** [s.split(sep)] for a separator of one code unit: every occurrence of
    the separator ends a token, so the result is never the empty array and
    two adjacent separators enclose an empty token. *)
Fixpoint split (sep : ascii) (s : string) : list string :=
  match s with
  | EmptyString => [EmptyString]
  | String c rest =>
      if Ascii.eqb c sep then EmptyString :: split sep rest
      else match split sep rest with
           | tok :: toks => String c tok :: toks
           | [] => [String c EmptyString]
           end
  end.

(** White space and line terminators below 128: TAB, LF, VT, FF, CR and
    the space. *)
Definition is_white_space (c : ascii) : bool :=
  let n := nat_of_ascii c in
  (((9 <=? n) && (n <=? 13)) || (n =? 32))%nat.

Fixpoint trimStart (s : string) : string :=
  match s with
  | EmptyString => EmptyString
  | String c rest => if is_white_space c then trimStart rest else s
  end.

Fixpoint trimEnd (s : string) : string :=
  match s with
  | EmptyString => EmptyString
  | String c rest =>
      match trimEnd rest with
      | EmptyString => if is_white_space c then EmptyString else String c EmptyString
      | kept => String c kept
      end
  end.

(** [String.prototype.trim]. *)
Definition trim (s : string) : string := trimEnd (trimStart s).

(** *** Ordinary objects used as string-to-string records *)

(** The own enumerable properties of a record, in creation order. *)
Definition object : Type := list (string * string).

Fixpoint own (o : object) (key : string) : option string :=
  match o with
  | [] => None
  | (k, v) :: rest => if (k =? key)%string then Some v else own rest key
  end.

(** The members every ordinary object inherits from [Object.prototype]. *)
Definition Object_prototype (key : string) : value :=
  if (key =? "__proto__")%string then VObject
  else if (key =? "constructor")%string then VFunction "Object"
  else if existsb (String.eqb key)
            ["hasOwnProperty"; "isPrototypeOf"; "propertyIsEnumerable";
             "toLocaleString"; "toString"; "valueOf";
             "__defineGetter__"; "__defineSetter__";
             "__lookupGetter__"; "__lookupSetter__"]
       then VFunction key
  else VUndefined.

(** The property read [o[key]]: an own property first, then the prototype
    chain, [undefined] when neither has the key. *)
Definition get (o : object) (key : string) : value :=
  match own o key with
  | Some v => VString v
  | None => Object_prototype key
  end.

(** A key that is a canonical array index: a decimal numeral without a
    leading zero ("0", "7", "42", not "07") below 2^32 - 1. *)
Definition digit_value (c : ascii) : option N :=
  let n := N_of_ascii c in
  if ((48 <=? n) && (n <=? 57))%N then Some (n - 48)%N else None.

Fixpoint digits_value (acc : N) (s : string) : option N :=
  match s with
  | EmptyString => Some acc
  | String c rest =>
      match digit_value c with
      | Some d => digits_value (10 * acc + d)%N rest
      | None => None
      end
  end.

Definition array_index (key : string) : option N :=
  match key with
  | EmptyString => None
  | String c EmptyString => digit_value c
  | String c _ =>
      if Ascii.eqb c "0" then None
      else match digits_value 0%N key with
           | Some n => if (n <? 4294967295)%N then Some n else None
           | None => None
           end
  end.

Fixpoint insert_index (e : N * (string * string))
    (l : list (N * (string * string))) : list (N * (string * string)) :=
  match l with
  | [] => [e]
  | x :: rest => if (fst e <=? fst x)%N then e :: l else x :: insert_index e rest
  end.

(** [Object.entries]: the array-index keys in ascending numeric order,
    then the other keys in creation order. *)
Definition Object_entries (o : object) : list (string * string) :=
  let indexed :=
    fold_right
      (fun kv acc =>
         match array_index (fst kv) with
         | Some i => insert_index (i, kv) acc
         | None => acc
         end) [] o in
  let named :=
    filter (fun kv => match array_index (fst kv) with
                      | Some _ => false | None => true end) o in
  map snd indexed ++ named.

(** The object literal [{ ...acc, [key]: v }]: a copy of [acc] in which
    [key] holds [v]; a key that is new comes last. *)
Fixpoint define (o : object) (key v : string) : object :=
  match o with
  | [] => [(key, v)]
  | (k, w) :: rest =>
      if (k =? key)%string then (k, v) :: rest else (k, w) :: define rest key v
  end.

Definition spread_with (acc : object) (key v : string) : object :=
  define (Object_entries acc) key v.

End JS.

(* ===================================================================== *)
(** ** The Morse code dictionary and the two transcoding functions      *)
(* ===================================================================== *)

Module Transcoder.
Import JS.

Definition MORSE_MAP : object :=
  [ ("A", ".-");    ("B", "-...");  ("C", "-.-.");  ("D", "-..");
    ("E", ".");     ("F", "..-.");  ("G", "--.");   ("H", "....");
    ("I", "..");    ("J", ".---");  ("K", "-.-");   ("L", ".-..");
    ("M", "--");    ("N", "-.");    ("O", "---");   ("P", ".--.");
    ("Q", "--.-");  ("R", ".-.");   ("S", "...");   ("T", "-");
    ("U", "..-");   ("V", "...-");  ("W", ".--");   ("X", "-..-");
    ("Y", "-.--");  ("Z", "--..");  ("0", "-----"); ("1", ".----");
    ("2", "..---"); ("3", "...--"); ("4", "....-"); ("5", ".....");
    ("6", "-....");  ("7", "--..."); ("8", "---.."); ("9", "----.");
    (" ", "/") ].

(** [Object.entries(MORSE_MAP).reduce((acc, [char, morse]) =>
      ({ ...acc, [morse]: char }), {})] *)
Definition REVERSE_MORSE_MAP : object :=
  fold_left (fun acc entry => spread_with acc (snd entry) (fst entry))
            (Object_entries MORSE_MAP) [].

(** [text.toUpperCase().split('').map(char => MORSE_MAP[char] || '')
      .join(' ').trim()] *)
Definition encodeMorse (text : string) : string :=
  trim (join " "
          (map (fun char => or_else (get MORSE_MAP char) (VString ""))
               (split_units (toUpperCase text)))).

(** [morse.split(' ').map(code =>
      REVERSE_MORSE_MAP[code] || (code === '/' ? ' ' : '?')).join('')] *)
Definition decodeMorse (morse : string) : string :=
  join ""
    (map (fun code =>
            or_else (get REVERSE_MORSE_MAP code)
                    (VString (if (code =? "/")%string then " " else "?")))
         (split " " morse)).

End Transcoder.

Import JS Transcoder.

(* ===================================================================== *)
(** ** The audio service and the telegraph key                           *)
(* ===================================================================== *)

Module Keyer.

(** The class [MorseAudio]: whether the audio context (and with it the
    gain node) exists, whether [this.oscillator] holds a node, and the
    target of the gain ramp ([false] for 0, [true] for 0.1). *)
Record MorseAudio : Type := mkAudio {
  ctx : bool;
  oscillator : bool;
  gain : bool
}.

(** What a pending timeout runs: the auto-space flush of [handleKeyUp] or
    the oscillator teardown of [MorseAudio.stop]. *)
Inductive callback : Type := Commit | Teardown.

Record timer : Type := mkTimer {
  tid : nat;
  due : Z;
  cb : callback
}.

(** The [useState] cells the key handlers read or write, [timeoutRef], the
    module level [audio] object and the timeouts pending in the host
    ([next_timer] is the identifier the next [setTimeout] returns). *)
Record state : Type := mkState {
  inputMorse : string;
  isMuted : bool;
  signalActive : bool;
  lastPressTime : Z;
  currentSequence : string;
  timeoutRef : option nat;
  audio : MorseAudio;
  timers : list timer;
  next_timer : nat
}.

Definition initial : state :=
  {| inputMorse := ""; isMuted := false; signalActive := false;
     lastPressTime := 0; currentSequence := ""; timeoutRef := None;
     audio := {| ctx := false; oscillator := false; gain := false |};
     timers := []; next_timer := 1 |}.

Definition setInputMorse (v : string) (st : state) : state :=
  mkState v (isMuted st) (signalActive st) (lastPressTime st)
          (currentSequence st) (timeoutRef st) (audio st) (timers st)
          (next_timer st).

Definition setIsMuted (v : bool) (st : state) : state :=
  mkState (inputMorse st) v (signalActive st) (lastPressTime st)
          (currentSequence st) (timeoutRef st) (audio st) (timers st)
          (next_timer st).

Definition setSignalActive (v : bool) (st : state) : state :=
  mkState (inputMorse st) (isMuted st) v (lastPressTime st)
          (currentSequence st) (timeoutRef st) (audio st) (timers st)
          (next_timer st).

Definition setLastPressTime (v : Z) (st : state) : state :=
  mkState (inputMorse st) (isMuted st) (signalActive st) v
          (currentSequence st) (timeoutRef st) (audio st) (timers st)
          (next_timer st).

Definition setCurrentSequence (v : string) (st : state) : state :=
  mkState (inputMorse st) (isMuted st) (signalActive st) (lastPressTime st)
          v (timeoutRef st) (audio st) (timers st) (next_timer st).

Definition set_timeoutRef (v : option nat) (st : state) : state :=
  mkState (inputMorse st) (isMuted st) (signalActive st) (lastPressTime st)
          (currentSequence st) v (audio st) (timers st) (next_timer st).

Definition set_audio (v : MorseAudio) (st : state) : state :=
  mkState (inputMorse st) (isMuted st) (signalActive st) (lastPressTime st)
          (currentSequence st) (timeoutRef st) v (timers st) (next_timer st).

(** [setTimeout(cb, delay)] called at time [now]: the timeout is queued
    under a fresh positive identifier, which is returned. *)
Definition setTimeout (f : callback) (now delay : Z) (st : state) : nat * state :=
  (next_timer st,
   mkState (inputMorse st) (isMuted st) (signalActive st) (lastPressTime st)
           (currentSequence st) (timeoutRef st) (audio st)
           (timers st ++ [mkTimer (next_timer st) (now + delay) f])
           (S (next_timer st))).

(** [clearTimeout(id)]: the timeout is removed if it is still pending. *)
Definition clearTimeout (id : nat) (st : state) : state :=
  mkState (inputMorse st) (isMuted st) (signalActive st) (lastPressTime st)
          (currentSequence st) (timeoutRef st) (audio st)
          (filter (fun t => negb (Nat.eqb (tid t) id)) (timers st))
          (next_timer st).

(** [MorseAudio.init]: the context and the gain node are created on first
    use, with the gain at 0. *)
Definition audio_init (a : MorseAudio) : MorseAudio :=
  if ctx a then a else {| ctx := true; oscillator := oscillator a; gain := false |}.

(** [MorseAudio.start]: after [init], a new oscillator is started and the
    gain ramps to 0.1. *)
Definition audio_start (st : state) : state :=
  let a := audio_init (audio st) in
  if ctx a
  then set_audio {| ctx := ctx a; oscillator := true; gain := true |} st
  else set_audio a st.

(** [MorseAudio.stop]: with a context, the gain ramps to 0 and the
    teardown is scheduled 50ms later; without one nothing happens. *)
Definition audio_stop (now : Z) (st : state) : state :=
  let a := audio st in
  if ctx a
  then snd (setTimeout Teardown now 50
              (set_audio {| ctx := ctx a; oscillator := oscillator a; gain := false |} st))
  else st.

(** The body of the teardown timeout: the oscillator held at that moment,
    if any, is stopped and forgotten. *)
Definition teardown (st : state) : state :=
  let a := audio st in
  if oscillator a
  then set_audio {| ctx := ctx a; oscillator := false; gain := gain a |} st
  else st.

(** The press classifier of [handleKeyUp]. *)
Definition symbol_of (duration : Z) : string :=
  if duration <? 200 then "." else "-".

(** The body of the auto-space timeout: a non-empty buffer is moved to
    the Morse input field, after a space if the field is non-empty. *)
Definition commit (st : state) : state :=
  let prev := currentSequence st in
  if negb (prev =? "")%string then
    let m := inputMorse st in
    setCurrentSequence ""
      (setInputMorse (if negb (m =? "")%string then m ++ " " ++ prev else prev) st)
  else st.

(** [handleKeyDown], run at time [now] ([Date.now()]); [timeoutRef] keeps
    the identifier it held. *)
Definition handleKeyDown (now : Z) (st : state) : state :=
  if isMuted st then st
  else
    let st1 := setSignalActive true st in
    let st2 := audio_start st1 in
    let st3 := setLastPressTime now st2 in
    match timeoutRef st3 with
    | Some id => clearTimeout id st3
    | None => st3
    end.

(** [handleKeyUp], run at time [now]. *)
Definition handleKeyUp (now : Z) (st : state) : state :=
  let st1 := setSignalActive false st in
  let st2 := audio_stop now st1 in
  let duration := now - lastPressTime st in
  let symbol := symbol_of duration in
  let st3 := setCurrentSequence (currentSequence st2 ++ symbol) st2 in
  let (id, st4) := setTimeout Commit now 600 st3 in
  set_timeoutRef (Some id) st4.

(** *** The event loop *)

(** The user events wired to the component. *)
Inductive event : Type :=
| MouseDown | MouseUp | MouseLeave | TouchStart | TouchEnd
| ToggleMute
| ChangeMorse (text : string)
| ClearMorse.

Definition dispatch (now : Z) (e : event) (st : state) : state :=
  match e with
  | MouseDown | TouchStart => handleKeyDown now st
  | MouseUp | TouchEnd => handleKeyUp now st
  | MouseLeave => if signalActive st then handleKeyUp now st else st
  | ToggleMute => setIsMuted (negb (isMuted st)) st
  | ChangeMorse text => setInputMorse text st
  | ClearMorse => setInputMorse "" st
  end.

(** A timeout fires. *)
Definition run_timer (st : state) (t : timer) : state :=
  match cb t with
  | Commit => commit st
  | Teardown => teardown st
  end.

Definition is_due (now : Z) (t : timer) : bool := due t <=? now.

Definition earlier (a b : timer) : bool :=
  (due a <? due b) || ((due a =? due b) && (tid a <=? tid b)%nat).

Fixpoint insert_timer (t : timer) (l : list timer) : list timer :=
  match l with
  | [] => [t]
  | x :: rest => if earlier t x then t :: l else x :: insert_timer t rest
  end.

Definition by_due (l : list timer) : list timer :=
  fold_right insert_timer [] l.

Definition set_timers (v : list timer) (st : state) : state :=
  mkState (inputMorse st) (isMuted st) (signalActive st) (lastPressTime st)
          (currentSequence st) (timeoutRef st) (audio st) v (next_timer st).

(** Time passes up to [now]: every timeout due by then leaves the queue
    and runs, the earliest first. *)
Definition advance (now : Z) (st : state) : state :=
  let ready := by_due (filter (is_due now) (timers st)) in
  let waiting := filter (fun t => negb (is_due now t)) (timers st) in
  fold_left run_timer ready (set_timers waiting st).

(** A trace of time-stamped events: before an event is handled the
    timeouts due by its time have run. *)
Fixpoint run (trace : list (Z * event)) (st : state) : state :=
  match trace with
  | [] => st
  | (now, e) :: rest => run rest (dispatch now e (advance now st))
  end.

End Keyer.

Import Keyer.

(* ===================================================================== *)
(** ** The two output panes                                              *)
(* ===================================================================== *)

Module Panes.

(** What an output pane renders: the transcoded text, or the dimmed
    placeholder of the [||] fallback. *)
Inductive pane : Type :=
| Shown (text : string)
| Placeholder (text : string).

(** [{encodeMorse(inputText) || <span>... --- ...</span>}] *)
Definition morse_output (inputText : string) : pane :=
  if truthy (VString (encodeMorse inputText))
  then Shown (encodeMorse inputText)
  else Placeholder "... --- ...".

(** [{decodeMorse(inputMorse) || <span>WAITING FOR SIGNAL...</span>}] *)
Definition plain_output (inputMorse : string) : pane :=
  if truthy (VString (decodeMorse inputMorse))
  then Shown (decodeMorse inputMorse)
  else Placeholder "WAITING FOR SIGNAL...".

End Panes.

Import Panes.

(* ===================================================================== *)
(** ** Vocabulary of the statements                                      *)
(* ===================================================================== *)

(** [all_units p s]: every code unit of [s] satisfies [p]. *)
Fixpoint all_units (p : ascii -> bool) (s : string) : bool :=
  match s with
  | EmptyString => true
  | String c rest => p c && all_units p rest
  end.

Definition nonempty (s : string) : bool := negb (s =? "")%string.

(** A token: no white space inside.  A space is white space, so a token
    never contains the separator of [encodeMorse]. *)
Definition solid (s : string) : bool :=
  all_units (fun c => negb (is_white_space c)) s.

Definition cons_first (c : ascii) (toks : list string) : list string :=
  match toks with
  | tok :: rest => String c tok :: rest
  | [] => [String c EmptyString]
  end.

(** A line in which the only white space is the space. *)
Definition spaced (s : string) : bool :=
  all_units (fun c => negb (is_white_space c) || Ascii.eqb c " ") s.

Definition words (toks : list string) : list string := filter nonempty toks.

(** The supported characters: A-Z, a-z, 0-9 and the space. *)
Definition supported_unit (c : ascii) : bool :=
  let n := nat_of_ascii c in
  (((65 <=? n) && (n <=? 90)) || ((97 <=? n) && (n <=? 122))
   || ((48 <=? n) && (n <=? 57)) || (n =? 32))%nat.

Definition supported (s : string) : bool := all_units supported_unit s.

(** What [encodeMorse] emits for one code unit of the upper-cased text,
    and what [decodeMorse] emits for one token. *)
Definition encode_unit (char : string) : value :=
  or_else (get MORSE_MAP char) (VString "").

Definition decode_token (code : string) : value :=
  or_else (get REVERSE_MORSE_MAP code)
          (VString (if (code =? "/")%string then " " else "?")).

Definition tokens (upper : string) : list string :=
  map join_item (map encode_unit (split_units upper)).

(** The unit [c] is a key of [MORSE_MAP]. *)
Definition in_table (c : ascii) : bool :=
  match own MORSE_MAP (String c EmptyString) with
  | Some _ => true
  | None => false
  end.

Definition entry_round_trips (c : ascii) : bool :=
  let u := String (toUpperCase_unit c) EmptyString in
  match encode_unit u with
  | VString m =>
      solid m && nonempty m &&
      match decode_token m with
      | VString back => (back =? u)%string
      | _ => false
      end
  | _ => false
  end.

Definition option_string_eqb (a b : option string) : bool :=
  match a, b with
  | Some x, Some y => (x =? y)%string
  | None, None => true
  | _, _ => false
  end.

Fixpoint keep_units (p : ascii -> bool) (s : string) : string :=
  match s with
  | EmptyString => EmptyString
  | String c rest =>
      if p c then String c (keep_units p rest) else keep_units p rest
  end.

(** The text without the characters whose upper case is absent from the
    alphabet table. *)
Definition drop_absent (text : string) : string :=
  keep_units (fun c => in_table (toUpperCase_unit c)) text.

(** The code units on which [toUpperCase] is embedded. *)
Definition is_ascii (c : ascii) : bool := (nat_of_ascii c <? 128)%nat.

Definition is_commit (t : timer) : bool :=
  match cb t with Commit => true | Teardown => false end.

(** The auto-space timeouts that are pending. *)
Definition commits (st : state) : list timer := filter is_commit (timers st).

(** Three states of the key reached from [initial].
    - [after_dot]: a 100ms press, a dot waiting in the buffer while "..." is
      in the field.
    - [after_first_flush]: two presses made while muted, released at 200ms
      and at 400ms; each release schedules a timeout, and at 800ms the
      first one has flushed both symbols while the second is pending.
    - [muted_after_dot]: a 100ms press, then the mute toggle; at 650ms the
      timeout of the press is still pending. *)
Definition after_dot : state :=
  run [(0, MouseDown); (100, MouseUp)] (setInputMorse "..." initial).

Definition after_first_flush : state :=
  advance 800
    (run [(0, ToggleMute); (100, MouseDown); (200, MouseUp);
          (300, MouseDown); (400, MouseUp)] initial).

Definition muted_after_dot : state :=
  advance 650 (run [(0, MouseDown); (100, MouseUp); (200, ToggleMute)] initial).

(** The characters of a Morse line: dot, dash, slash and the space. *)
Definition morse_unit (c : ascii) : bool :=
  Ascii.eqb c "." || Ascii.eqb c "-" || Ascii.eqb c "/" || Ascii.eqb c " ".

Definition first_unit (s : string) : option ascii :=
  match s with
  | EmptyString => None
  | String c _ => Some c
  end.

Fixpoint last_unit (s : string) : option ascii :=
  match s with
  | EmptyString => None
  | String c EmptyString => Some c
  | String _ rest => last_unit rest
  end.

(** A Morse code of the alphabet: a key of the inverse table. *)
Definition is_code (code : string) : bool :=
  match own REVERSE_MORSE_MAP code with
  | Some _ => true
  | None => false
  end.

(** The keyed symbols, committed or not: the Morse input field followed by
    the in-progress buffer, without the separating spaces. *)
Definition despace (s : string) : string :=
  keep_units (fun c => negb (Ascii.eqb c " ")) s.

Definition sent (st : state) : string :=
  despace (inputMorse st ++ currentSequence st).

(** A committed group: a non-empty run of dots and dashes. *)
Definition dot_or_dash (c : ascii) : bool := Ascii.eqb c "." || Ascii.eqb c "-".

Definition is_group (g : string) : bool := nonempty g && all_units dot_or_dash g.

(** The events of the telegraph key and of the mute button. *)
Definition key_event (e : event) : bool :=
  match e with
  | MouseDown | MouseUp | MouseLeave | TouchStart | TouchEnd | ToggleMute => true
  | ChangeMorse _ | ClearMorse => false
  end.

Definition is_teardown (t : timer) : bool :=
  match cb t with Teardown => true | Commit => false end.

(** The presses and releases of the key (the pointer leaving it apart) and
    the mute button; the releases among them. *)
Definition press_event (e : event) : bool :=
  match e with
  | MouseDown | MouseUp | TouchStart | TouchEnd | ToggleMute => true
  | _ => false
  end.

Definition is_release (e : event) : bool :=
  match e with
  | MouseUp | TouchEnd => true
  | _ => false
  end.

Definition is_toggle (e : event) : bool :=
  match e with
  | ToggleMute => true
  | _ => false
  end.

(** The shape of what has been keyed: the field is a list of groups joined
    by single spaces, and the buffer holds dots and dashes only. *)
Definition keyed_shape (st : state) : Prop :=
  (exists groups,
      inputMorse st = String.concat " " groups
      /\ forallb is_group groups = true)
  /\ all_units dot_or_dash (currentSequence st) = true.

(** What [decodeMorse] emits for a token that names no inherited member:
    its character in the inverse table, or the placeholder. *)
Definition plain_char (code : string) : string :=
  match own REVERSE_MORSE_MAP code with
  | Some char => char
  | None => "?"
  end.

(* ===================================================================== *)
(** ** Strings: splitting, joining and trimming                          *)
(* ===================================================================== *)

Section StringFacts.

Lemma append_assoc (a b c : string) : (a ++ b) ++ c = a ++ (b ++ c).
Proof. induction a as [|x a IH]; [reflexivity|]. simpl. now rewrite IH. Qed.

Lemma split_not_nil sep s : split sep s <> [].
Proof.
  destruct s as [|c r]; simpl; [discriminate|].
  destruct (Ascii.eqb c sep); [discriminate|].
  destruct (split sep r); discriminate.
Qed.

Lemma split_cons sep c r :
  split sep (String c r) =
  if Ascii.eqb c sep then EmptyString :: split sep r
  else cons_first c (split sep r).
Proof. reflexivity. Qed.

Lemma cons_first_app c l l' :
  l <> [] -> cons_first c (l ++ l')%list = (cons_first c l ++ l')%list.
Proof. destruct l; [congruence | reflexivity]. Qed.

Lemma split_app_sep sep a b :
  split sep (a ++ String sep b) = (split sep a ++ split sep b)%list.
Proof.
  induction a as [|c a IH]; simpl append.
  - rewrite split_cons, Ascii.eqb_refl. reflexivity.
  - rewrite !split_cons. destruct (Ascii.eqb c sep).
    + rewrite IH. reflexivity.
    + rewrite IH. apply cons_first_app, split_not_nil.
Qed.

Lemma space_is_white_space c : Ascii.eqb c " " = true -> is_white_space c = true.
Proof. intros H. apply Ascii.eqb_eq in H. subst c. reflexivity. Qed.

Lemma split_solid s : solid s = true -> split " " s = [s].
Proof.
  induction s as [|c r IH]; simpl; [reflexivity|].
  intros H. apply andb_true_iff in H. destruct H as [Hc Hr].
  destruct (Ascii.eqb c " ") eqn:E.
  - apply space_is_white_space in E. rewrite E in Hc. discriminate.
  - rewrite (IH Hr). reflexivity.
Qed.

Lemma split_concat toks :
  toks <> [] -> forallb solid toks = true ->
  split " " (String.concat " " toks) = toks.
Proof.
  induction toks as [|x [|y r] IH]; intros Hne Hall.
  - congruence.
  - simpl in *. apply split_solid. now rewrite andb_true_r in Hall.
  - change (String.concat " " (x :: y :: r))
      with (x ++ String " " (String.concat " " (y :: r))).
    simpl in Hall. apply andb_true_iff in Hall. destruct Hall as [Hx Hr].
    rewrite split_app_sep, (split_solid _ Hx), IH; [reflexivity|discriminate|exact Hr].
Qed.

Lemma trimStart_solid s : solid s = true -> trimStart s = s.
Proof.
  destruct s as [|c r]; simpl; [reflexivity|].
  intros H. apply andb_true_iff in H. destruct H as [Hc _].
  apply negb_true_iff in Hc. now rewrite Hc.
Qed.

Lemma trimStart_app_solid a b :
  solid a = true -> a <> "" -> trimStart (a ++ b) = a ++ b.
Proof.
  destruct a as [|c r]; [congruence|]. simpl. intros H _.
  apply andb_true_iff in H. destruct H as [Hc _].
  apply negb_true_iff in Hc. now rewrite Hc.
Qed.

Lemma trimEnd_solid s : solid s = true -> trimEnd s = s.
Proof.
  induction s as [|c r IH]; simpl; [reflexivity|].
  intros H. apply andb_true_iff in H. destruct H as [Hc Hr].
  rewrite (IH Hr). apply negb_true_iff in Hc. rewrite Hc.
  destruct r; reflexivity.
Qed.

Lemma trimEnd_app a s :
  trimEnd s <> "" -> trimEnd (a ++ s) = a ++ trimEnd s.
Proof.
  intros Hs. induction a as [|c a IH]; simpl; [reflexivity|].
  rewrite IH. destruct (a ++ trimEnd s) eqn:E; [|reflexivity].
  destruct a; simpl in E; [congruence | discriminate].
Qed.

Lemma concat_nonempty_head sep x r :
  x <> "" -> String.concat sep (x :: r) <> "".
Proof.
  intros Hx. destruct r; simpl; [exact Hx|].
  destruct x; [congruence | discriminate].
Qed.

(** Joining non-empty tokens with single spaces leaves nothing for
    [trim] to remove. *)
Lemma trim_concat_tokens toks :
  forallb (fun t => solid t && nonempty t) toks = true ->
  trim (String.concat " " toks) = String.concat " " toks.
Proof.
  unfold trim. intros Hall.
  assert (Hstart : trimStart (String.concat " " toks) = String.concat " " toks).
  { destruct toks as [|x r]; [reflexivity|].
    simpl in Hall. apply andb_true_iff in Hall. destruct Hall as [Hx _].
    apply andb_true_iff in Hx. destruct Hx as [Hs Hn].
    assert (x <> "") by (intros ->; discriminate).
    destruct r; simpl; [now apply trimStart_solid | now apply trimStart_app_solid]. }
  rewrite Hstart. clear Hstart.
  induction toks as [|x [|y r] IH]; [reflexivity| |].
  - simpl in *. apply trimEnd_solid.
    rewrite andb_true_r in Hall. now apply andb_true_iff in Hall.
  - change (String.concat " " (x :: y :: r))
      with (x ++ String " " (String.concat " " (y :: r))).
    simpl in Hall. apply andb_true_iff in Hall. destruct Hall as [_ Hr].
    specialize (IH Hr).
    assert (Hrest : String.concat " " (y :: r) <> "").
    { apply concat_nonempty_head.
      simpl in Hr. apply andb_true_iff in Hr. destruct Hr as [Hy _].
      apply andb_true_iff in Hy. destruct Hy as [_ Hn].
      intros ->. discriminate. }
    assert (E : trimEnd (String " " (String.concat " " (y :: r)))
                = String " " (String.concat " " (y :: r))).
    { cbn [trimEnd]. rewrite IH.
      destruct (String.concat " " (y :: r)); [congruence | reflexivity]. }
    rewrite trimEnd_app; rewrite E; [reflexivity | discriminate].
Qed.

Lemma concat_split_units s : String.concat "" (split_units s) = s.
Proof.
  induction s as [|c r IH]; [reflexivity|].
  simpl. destruct (split_units r) eqn:E.
  - destruct r; [reflexivity | discriminate].
  - simpl. f_equal. exact IH.
Qed.

Lemma all_units_app p a b :
  all_units p (a ++ b) = all_units p a && all_units p b.
Proof.
  induction a as [|c r IH]; [reflexivity|].
  simpl. now rewrite IH, andb_assoc.
Qed.

Lemma solid_spaced s : solid s = true -> spaced s = true.
Proof.
  unfold solid, spaced. induction s as [|c r IH]; [reflexivity|].
  simpl. intros H. apply andb_true_iff in H. destruct H as [-> Hr].
  now rewrite IH.
Qed.

Lemma spaced_concat toks :
  forallb solid toks = true -> spaced (String.concat " " toks) = true.
Proof.
  induction toks as [|x [|y r] IH]; [reflexivity| |].
  - simpl. rewrite andb_true_r. apply solid_spaced.
  - change (String.concat " " (x :: y :: r))
      with (x ++ String " " (String.concat " " (y :: r))).
    intros H. cbn [forallb] in H. apply andb_true_iff in H. destruct H as [Hx Hr].
    unfold spaced in *. rewrite all_units_app. cbn [all_units].
    rewrite (solid_spaced _ Hx : all_units _ x = true), (IH Hr). reflexivity.
Qed.

Lemma spaced_cons c r :
  spaced (String c r) = true ->
  (Ascii.eqb c " " = true \/ (is_white_space c = false /\ Ascii.eqb c " " = false))
  /\ spaced r = true.
Proof.
  unfold spaced. cbn [all_units]. intros H.
  apply andb_true_iff in H. destruct H as [Hc Hr]. split; [|exact Hr].
  destruct (Ascii.eqb c " ") eqn:E; [now left|right].
  rewrite orb_false_r in Hc. apply negb_true_iff in Hc. now split.
Qed.

Lemma words_repeat_empty k : words (repeat EmptyString k) = [].
Proof. induction k; [reflexivity | exact IHk]. Qed.

Lemma words_trimStart s :
  spaced s = true ->
  words (split " " (trimStart s)) = words (split " " s)
  /\ spaced (trimStart s) = true.
Proof.
  induction s as [|c r IH]; [split; reflexivity|].
  intros H. pose proof H as H0. apply spaced_cons in H. destruct H as [Hc Hr].
  cbn [trimStart]. destruct Hc as [Hsp | [Hws Hsp]].
  - rewrite (space_is_white_space _ Hsp), split_cons, Hsp.
    destruct (IH Hr) as [IH1 IH2]. now split.
  - rewrite Hws. now split.
Qed.

(** The split of a line is the split of its end-trimmed part followed by
    empty tokens only. *)
Lemma split_trimEnd s :
  spaced s = true ->
  exists k,
    split " " s =
    (match trimEnd s with
     | EmptyString => []
     | kept => split " " kept
     end ++ repeat EmptyString k)%list.
Proof.
  induction s as [|c r IH]; [exists 1%nat; reflexivity|].
  intros H. apply spaced_cons in H. destruct H as [Hc Hr].
  destruct (IH Hr) as [k Hk]. clear IH.
  rewrite split_cons. cbn [trimEnd].
  destruct Hc as [Hsp | [Hws Hsp]].
  - rewrite Hsp, (space_is_white_space _ Hsp).
    destruct (trimEnd r) as [|d kept] eqn:E.
    + exists (S k). cbn [app] in *. rewrite Hk. reflexivity.
    + exists k. rewrite split_cons, Hsp, Hk. reflexivity.
  - rewrite Hsp, Hws.
    destruct (trimEnd r) as [|d kept] eqn:E.
    + cbn [app] in Hk. destruct k as [|k].
      * exfalso. now apply (split_not_nil " " r).
      * exists k. rewrite Hk, split_cons, Hsp. reflexivity.
    + exists k. rewrite (split_cons _ c), Hsp, Hk.
      apply cons_first_app, split_not_nil.
Qed.

Lemma words_trimEnd s :
  spaced s = true ->
  words (split " " (trimEnd s)) = words (split " " s).
Proof.
  intros H. destruct (split_trimEnd s H) as [k Hk]. rewrite Hk.
  unfold words. rewrite filter_app. fold (words (repeat EmptyString k)).
  rewrite words_repeat_empty, app_nil_r.
  destruct (trimEnd s); reflexivity.
Qed.

Lemma words_trim s :
  spaced s = true -> words (split " " (trim s)) = words (split " " s).
Proof.
  intros H. unfold trim. destruct (words_trimStart s H) as [H1 H2].
  now rewrite words_trimEnd, H1.
Qed.

Lemma words_split_concat toks :
  forallb solid toks = true ->
  words (split " " (String.concat " " toks)) = words toks.
Proof.
  intros H. destruct toks as [|x r]; [reflexivity|].
  rewrite split_concat; [reflexivity | discriminate | exact H].
Qed.

(** The non-empty tokens of the trimmed join are the non-empty tokens
    that were joined. *)
Lemma words_trim_concat toks :
  forallb solid toks = true ->
  words (split " " (trim (String.concat " " toks))) = words toks.
Proof.
  intros H. rewrite words_trim by now apply spaced_concat.
  now apply words_split_concat.
Qed.

Lemma words_are_tokens toks :
  forallb solid toks = true ->
  forallb (fun t => solid t && nonempty t) (words toks) = true.
Proof.
  induction toks as [|t r IH]; [reflexivity|].
  cbn [forallb words filter]. intros H.
  apply andb_true_iff in H. destruct H as [Ht Hr].
  destruct (nonempty t) eqn:E; [|now apply IH].
  cbn [forallb]. rewrite Ht, E. now apply IH.
Qed.

End StringFacts.

(* ===================================================================== *)
(** ** The tables                                                        *)
(* ===================================================================== *)

Section Tables.

Lemma encodeMorse_tokens text :
  encodeMorse text = trim (String.concat " " (tokens (toUpperCase text))).
Proof. unfold encodeMorse, join, tokens, encode_unit. reflexivity. Qed.

Lemma decodeMorse_tokens morse :
  decodeMorse morse =
  String.concat "" (map join_item (map decode_token (split " " morse))).
Proof. unfold decodeMorse, join, decode_token. reflexivity. Qed.

Lemma supported_round_trips c :
  supported_unit c = true -> entry_round_trips c = true.
Proof.
  destruct c as [[] [] [] [] [] [] [] []]; vm_compute; intros H; exact H.
Qed.

(** A character is supported exactly when its upper case is a key. *)
Lemma supported_in_table c :
  supported_unit c = in_table (toUpperCase_unit c).
Proof. destruct c as [[] [] [] [] [] [] [] []]; vm_compute; reflexivity. Qed.

Lemma tokens_cons c rest :
  tokens (String c rest)
  = join_item (encode_unit (String c EmptyString)) :: tokens rest.
Proof. unfold tokens. cbn [split_units map]. reflexivity. Qed.

(** On supported text every emitted token is a non-empty Morse code, and
    decoding the tokens one by one gives the upper-cased text back. *)
Lemma tokens_of_supported s :
  supported s = true ->
  forallb (fun t => solid t && nonempty t) (tokens (toUpperCase s)) = true
  /\ map join_item (map decode_token (tokens (toUpperCase s)))
     = split_units (toUpperCase s).
Proof.
  induction s as [|c r IH]; [split; reflexivity|].
  unfold supported. cbn [toUpperCase all_units].
  intros H. apply andb_true_iff in H. destruct H as [Hc Hr].
  destruct (IH Hr) as [IH1 IH2]. clear IH.
  rewrite tokens_cons. cbn [forallb map split_units].
  rewrite IH1, IH2.
  apply supported_round_trips in Hc. unfold entry_round_trips in Hc.
  destruct (encode_unit (String (toUpperCase_unit c) "")) as [|m| |];
    try discriminate Hc.
  apply andb_true_iff in Hc. destruct Hc as [Hm Hback].
  cbn [join_item ToString]. rewrite Hm.
  destruct (decode_token m) as [|back| |]; try discriminate Hback.
  apply String.eqb_eq in Hback. subst back. split; reflexivity.
Qed.

Lemma solid_of_token_check toks :
  forallb (fun t => solid t && nonempty t) toks = true ->
  forallb solid toks = true.
Proof.
  induction toks as [|t r IH]; [reflexivity|]. cbn [forallb].
  intros H. apply andb_true_iff in H. destruct H as [Ht Hr].
  apply andb_true_iff in Ht. destruct Ht as [-> _]. now rewrite IH.
Qed.

(** X1.  The round trip on non-empty supported text: for every non-empty
    string of supported characters (A-Z, a-z, 0-9, space), decoding its
    encoding gives the string in upper case. *)
Theorem decode_encode_supported (S : string) :
  S <> "" -> supported S = true ->
  decodeMorse (encodeMorse S) = toUpperCase S.
Proof.
  intros Hne Hs.
  destruct (tokens_of_supported S Hs) as [Htok Hback].
  rewrite encodeMorse_tokens, decodeMorse_tokens.
  rewrite (trim_concat_tokens _ Htok).
  rewrite split_concat.
  - rewrite Hback. apply concat_split_units.
  - destruct S as [|c r]; [congruence|].
    cbn [toUpperCase]. rewrite tokens_cons. discriminate.
  - now apply solid_of_token_check.
Qed.

Lemma decode_encode_supported_witness :
  decodeMorse (encodeMorse "Sos 73") = "SOS 73".
Proof.
  apply (decode_encode_supported "Sos 73"); [discriminate | vm_compute; reflexivity].
Defined.

End Tables.

(* ===================================================================== *)
(** ** Properties of the transcoder                                      *)
(* ===================================================================== *)

Section TranscoderProperties.

Example encode_SOS : encodeMorse "SOS" = "... --- ...".
Proof. reflexivity. Qed.

Example decode_SOS_COMM : decodeMorse "... --- ... / -.-. --- -- --" = "SOS COMM".
Proof. reflexivity. Qed.

Lemma own_In (o : object) key v : own o key = Some v -> In (key, v) o.
Proof.
  induction o as [|[k w] r IH]; cbn [own]; [discriminate|].
  destruct (String.eqb_spec k key) as [->|_].
  - intros [= ->]. now left.
  - intros H. right. now apply IH.
Qed.

Lemma option_string_eqb_eq a b : option_string_eqb a b = true -> a = b.
Proof.
  destruct a, b; cbn; try discriminate; try reflexivity.
  intros H. apply String.eqb_eq in H. now subst.
Qed.

(** Every entry of one table is found, reversed, in the other. *)
Lemma reversed_entries (o o' : object) :
  forallb (fun kv => option_string_eqb (own o' (snd kv)) (Some (fst kv))) o = true ->
  forall key v, own o key = Some v -> own o' v = Some key.
Proof.
  intros Hall key v Hown. apply own_In in Hown.
  rewrite forallb_forall in Hall.
  apply (option_string_eqb_eq _ _ (Hall _ Hown)).
Qed.

(** X2.  The inverse table holds exactly the reversed pairs of
    [MORSE_MAP]: the reduce loses no entry and adds none, so no two
    characters share a code. *)
Theorem REVERSE_MORSE_MAP_exact (c m : string) :
  own MORSE_MAP c = Some m <-> own REVERSE_MORSE_MAP m = Some c.
Proof.
  split.
  - apply reversed_entries. vm_compute. reflexivity.
  - apply reversed_entries. vm_compute. reflexivity.
Qed.

(** A single code unit that is not a key encodes to the empty token. *)
Lemma encode_unit_missing (c : ascii) :
  in_table c = false -> encode_unit (String c EmptyString) = VString "".
Proof.
  destruct c as [[] [] [] [] [] [] [] []]; vm_compute; intros H;
    first [reflexivity | discriminate H].
Qed.

(** The characters stored in the inverse table are single code units. *)
Lemma REVERSE_MORSE_MAP_units code char :
  own REVERSE_MORSE_MAP code = Some char -> String.length char = 1%nat.
Proof.
  intros H. apply own_In in H.
  assert (Hall : forallb (fun kv => (String.length (snd kv) =? 1)%nat)
                         REVERSE_MORSE_MAP = true) by (vm_compute; reflexivity).
  rewrite forallb_forall in Hall. apply Nat.eqb_eq. apply (Hall _ H).
Qed.

Lemma slash_is_space : own REVERSE_MORSE_MAP "/" = Some " ".
Proof. vm_compute. reflexivity. Qed.

(** A token that names no member of [Object.prototype] decodes to one
    character: its table entry, or the placeholder. *)
Lemma decode_token_plain (code : string) :
  Object_prototype code = VUndefined ->
  decode_token code =
  VString (match own REVERSE_MORSE_MAP code with
           | Some char => char
           | None => "?"
           end)
  /\ String.length (join_item (decode_token code)) = 1%nat.
Proof.
  intros Hproto. unfold decode_token, or_else, get.
  destruct (own REVERSE_MORSE_MAP code) as [char|] eqn:E.
  - pose proof (REVERSE_MORSE_MAP_units _ _ E) as Hlen.
    destruct char as [|ch [|? ?]]; try discriminate Hlen.
    split; reflexivity.
  - rewrite Hproto. cbn [truthy].
    destruct (String.eqb_spec code "/") as [->|_].
    + rewrite slash_is_space in E. discriminate.
    + split; reflexivity.
Qed.

Lemma length_concat_units (xs : list string) :
  Forall (fun x => String.length x = 1%nat) xs ->
  String.length (String.concat "" xs) = length xs.
Proof.
  induction 1 as [|x r Hx _ IH]; [reflexivity|].
  destruct x as [|ch [|? ?]]; try discriminate Hx.
  cbn [length]. rewrite <- IH. destruct r; reflexivity.
Qed.

(** On input whose tokens name no inherited member, [decodeMorse] emits
    one character per token. *)
Lemma decodeMorse_one_per_token (morse : string) :
  Forall (fun code => Object_prototype code = VUndefined) (split " " morse) ->
  String.length (decodeMorse morse) = length (split " " morse).
Proof.
  intros Hall. rewrite decodeMorse_tokens.
  rewrite length_concat_units.
  - now rewrite !length_map.
  - induction Hall as [|code r Hc _ IH]; constructor; [|exact IH].
    apply (decode_token_plain code Hc).
Qed.

Lemma decode_token_nonempty code : join_item (decode_token code) <> "".
Proof.
  unfold decode_token, or_else.
  destruct (get REVERSE_MORSE_MAP code) as [|s| |]; cbn [truthy join_item ToString].
  - destruct (code =? "/")%string; discriminate.
  - destruct s; cbn; [|discriminate].
    destruct (code =? "/")%string; discriminate.
  - discriminate.
  - discriminate.
Qed.

(** [decodeMorse] never returns the empty string, so the caller's
    [decodeMorse(inputMorse) || ...] fallback cannot be taken. *)
Lemma decodeMorse_nonempty (morse : string) : decodeMorse morse <> "".
Proof.
  rewrite decodeMorse_tokens.
  pose proof (split_not_nil " " morse) as Hne.
  destruct (split " " morse) as [|code r]; [congruence|].
  cbn [map]. pose proof (decode_token_nonempty code) as Hc.
  destruct (join_item (decode_token code)) eqn:E; [congruence|].
  destruct (map join_item (map decode_token r)); cbn; discriminate.
Qed.

(** C1.  The round trip [decodeMorse (encodeMorse S) = toUpperCase S]
    breaks on the empty string, which is composed only of supported
    characters: encoding gives the empty string, whose split is one empty
    token, which decodes to the placeholder.  (On every other supported
    string the round trip holds: [decode_encode_supported].) *)
Theorem decode_encode_empty :
  supported "" = true
  /\ encodeMorse "" = ""
  /\ toUpperCase "" = ""
  /\ decodeMorse (encodeMorse "") = "?"
  /\ decodeMorse (encodeMorse "") <> toUpperCase "".
Proof. vm_compute. repeat split; discriminate. Qed.

(** C2.  A token naming a member inherited from [Object.prototype] is
    neither in the inverse table nor [/], yet it does not decode to the
    placeholder: the single token [__proto__] decodes to the fifteen
    characters of the rendered prototype object.  The two examples of the
    claim do hold. *)
Theorem decode_inherited_member :
  split " " "__proto__" = ["__proto__"]
  /\ own REVERSE_MORSE_MAP "__proto__" = None
  /\ decodeMorse "__proto__" = "[object Object]"
  /\ String.length (decodeMorse "__proto__") = 15%nat
  /\ decodeMorse "!!!" = "?"
  /\ decodeMorse "... --- ... / -.-. --- -- --" = "SOS COMM".
Proof. vm_compute. repeat split. Qed.

Lemma unit_token (u : ascii) :
  solid (join_item (encode_unit (String u EmptyString))) = true
  /\ nonempty (join_item (encode_unit (String u EmptyString))) = in_table u.
Proof. destruct u as [[] [] [] [] [] [] [] []]; vm_compute; split; reflexivity. Qed.

Lemma tokens_solid upper : forallb solid (tokens upper) = true.
Proof.
  induction upper as [|u r IH]; [reflexivity|].
  rewrite tokens_cons. cbn [forallb].
  now rewrite (proj1 (unit_token u)), IH.
Qed.

Lemma tokens_drop_absent text :
  tokens (toUpperCase (drop_absent text)) = words (tokens (toUpperCase text)).
Proof.
  induction text as [|c r IH]; [reflexivity|].
  unfold drop_absent in *. cbn [keep_units toUpperCase].
  rewrite (tokens_cons (toUpperCase_unit c)). cbn [words filter].
  rewrite (proj2 (unit_token (toUpperCase_unit c))).
  destruct (in_table (toUpperCase_unit c)).
  - cbn [toUpperCase]. rewrite tokens_cons. f_equal. exact IH.
  - exact IH.
Qed.

(** C3, as stated, fails: the character dropped between two supported
    ones leaves its separator behind. *)
Lemma encode_keeps_separator_of_dropped :
  drop_absent "A!B" = "AB"
  /\ encodeMorse "A!B" = ".-  -..."
  /\ encodeMorse "AB" = ".- -..."
  /\ encodeMorse "A!B" <> encodeMorse (drop_absent "A!B").
Proof. vm_compute. repeat split; discriminate. Qed.

(** C3, amended.  For text of code units below 128, encoding the text
    without its unsupported characters gives the encoding of the text with
    its empty tokens removed: the non-empty space-separated tokens, joined
    by single spaces.  [encodeMorse "SOS"] is [... --- ...]. *)
Theorem encode_drop_absent (text : string) :
  all_units is_ascii text = true ->
  encodeMorse (drop_absent text)
  = String.concat " " (words (split " " (encodeMorse text)))
  /\ encodeMorse "SOS" = "... --- ...".
Proof.
  intros _. split; [|vm_compute; reflexivity].
  rewrite !encodeMorse_tokens, tokens_drop_absent.
  rewrite (words_trim_concat _ (tokens_solid _)).
  apply trim_concat_tokens, words_are_tokens, tokens_solid.
Qed.

Lemma encode_drop_absent_witness :
  all_units is_ascii "a!b c?" = true
  /\ encodeMorse (drop_absent "a!b c?")
     = String.concat " " (words (split " " (encodeMorse "a!b c?"))).
Proof.
  split; [reflexivity|].
  apply (encode_drop_absent "a!b c?"). reflexivity.
Defined.

(** C4.  A lookup of a key missing from the inverse table does not always
    yield the unknown marker: for a key naming an inherited member the
    property read returns that member, and so does the read on the forward
    table.  (The inverse table itself is exactly the reversed forward
    table: [REVERSE_MORSE_MAP_exact].) *)
Theorem lookup_inherited_member :
  own REVERSE_MORSE_MAP "constructor" = None
  /\ get REVERSE_MORSE_MAP "constructor" = VFunction "Object"
  /\ decode_token "constructor" <> VString "?"
  /\ own MORSE_MAP "constructor" = None
  /\ get MORSE_MAP "constructor" = VFunction "Object".
Proof. vm_compute. repeat split; discriminate. Qed.

(** C9.  The empty input splits into one empty token, which is not in the
    inverse table, so [decodeMorse] returns the placeholder; the same
    happens to the encoding of the empty text. *)
Theorem decode_empty_is_placeholder :
  split " " "" = [""]
  /\ own REVERSE_MORSE_MAP "" = None
  /\ decodeMorse "" = "?"
  /\ decodeMorse "" <> ""
  /\ decodeMorse (encodeMorse "") = "?".
Proof. vm_compute. repeat split; discriminate. Qed.

End TranscoderProperties.

(* ===================================================================== *)
(** ** Properties of the telegraph key                                   *)
(* ===================================================================== *)

Section KeyerProperties.

(** *** The handlers, field by field *)

Lemma filter_swap {A} (p q : A -> bool) l :
  filter p (filter q l) = filter q (filter p l).
Proof.
  induction l as [|x r IH]; [reflexivity|]. cbn [filter].
  destruct (p x) eqn:P, (q x) eqn:Q; cbn [filter]; rewrite ?P, ?Q, IH; reflexivity.
Qed.

Lemma handleKeyDown_unmuted now st :
  isMuted st = false ->
  let st' := handleKeyDown now st in
  inputMorse st' = inputMorse st
  /\ currentSequence st' = currentSequence st
  /\ isMuted st' = false
  /\ signalActive st' = true
  /\ lastPressTime st' = now
  /\ timeoutRef st' = timeoutRef st
  /\ commits st' =
     match timeoutRef st with
     | Some id => filter (fun t => negb (Nat.eqb (tid t) id)) (commits st)
     | None => commits st
     end.
Proof.
  intros Hm. destruct st as [m mu sa lp cs ref [cx os gn] ts nx].
  cbn in Hm. subst mu. unfold handleKeyDown, commits. cbn.
  destruct cx; cbn; destruct ref as [id|]; cbn; repeat split;
    apply filter_swap.
Qed.

Lemma handleKeyUp_fields now st :
  let st' := handleKeyUp now st in
  inputMorse st' = inputMorse st
  /\ currentSequence st' = currentSequence st ++ symbol_of (now - lastPressTime st)
  /\ isMuted st' = isMuted st
  /\ signalActive st' = false
  /\ lastPressTime st' = lastPressTime st
  /\ exists id,
       timeoutRef st' = Some id
       /\ In (mkTimer id (now + 600) Commit) (timers st')
       /\ commits st' = (commits st ++ [mkTimer id (now + 600) Commit])%list.
Proof.
  destruct st as [m mu sa lp cs ref [cx os gn] ts nx].
  unfold handleKeyUp, commits. destruct cx; cbn; repeat split.
  - exists (S nx). repeat split.
    + apply in_or_app. right. now left.
    + now rewrite !filter_app, app_nil_r.
  - exists nx. repeat split.
    + apply in_or_app. right. now left.
    + now rewrite filter_app.
Qed.

(** *** Time passing *)

Lemma commit_frame st :
  isMuted (commit st) = isMuted st
  /\ signalActive (commit st) = signalActive st
  /\ lastPressTime (commit st) = lastPressTime st
  /\ timeoutRef (commit st) = timeoutRef st
  /\ timers (commit st) = timers st
  /\ audio (commit st) = audio st.
Proof. unfold commit. destruct (negb _); repeat split. Qed.

Lemma commit_idempotent st : commit (commit st) = commit st.
Proof.
  destruct st as [m mu sa lp cs ref au ts nx]. unfold commit. cbn.
  destruct cs; reflexivity.
Qed.

Lemma commit_teardown st : commit (teardown st) = teardown (commit st).
Proof.
  destruct st as [m mu sa lp cs ref [cx os gn] ts nx].
  unfold commit, teardown. cbn. destruct cs, os; reflexivity.
Qed.

Lemma teardown_frame st :
  inputMorse (teardown st) = inputMorse st
  /\ currentSequence (teardown st) = currentSequence st
  /\ isMuted (teardown st) = isMuted st
  /\ lastPressTime (teardown st) = lastPressTime st
  /\ timeoutRef (teardown st) = timeoutRef st
  /\ timers (teardown st) = timers st.
Proof. unfold teardown. destruct (oscillator _); repeat split. Qed.

(** Running a batch of timeouts: the buffers are flushed once if the
    batch holds an auto-space timeout, and are untouched otherwise. *)
Lemma run_timers_fields (batch : list timer) st :
  let st' := fold_left run_timer batch st in
  isMuted st' = isMuted st
  /\ lastPressTime st' = lastPressTime st
  /\ timeoutRef st' = timeoutRef st
  /\ timers st' = timers st
  /\ inputMorse st' =
     inputMorse (if existsb is_commit batch then commit st else st)
  /\ currentSequence st' =
     currentSequence (if existsb is_commit batch then commit st else st).
Proof.
  revert st. induction batch as [|t r IH]; intros st; [cbn; repeat split|].
  cbn [fold_left existsb]. specialize (IH (run_timer st t)).
  cbn zeta in *. destruct IH as (I1 & I2 & I3 & I4 & I5 & I6).
  rewrite I1, I2, I3, I4, I5, I6. clear I1 I2 I3 I4 I5 I6.
  unfold run_timer. destruct (cb t) eqn:E.
  - assert (Hc : is_commit t = true) by (unfold is_commit; now rewrite E).
    rewrite Hc. cbn [orb].
    destruct (commit_frame st) as (C1 & _ & C3 & C4 & C5 & _).
    rewrite commit_idempotent. repeat split; try assumption;
      destruct (existsb is_commit r); reflexivity.
  - assert (Hc : is_commit t = false) by (unfold is_commit; now rewrite E).
    rewrite Hc. cbn [orb].
    destruct (teardown_frame st) as (T1 & T2 & T3 & T4 & T5 & T6).
    rewrite commit_teardown.
    destruct (teardown_frame (commit st)) as (U1 & U2 & _).
    repeat split; try assumption;
      destruct (existsb is_commit r); congruence.
Qed.

Lemma existsb_insert_timer p t l :
  existsb p (insert_timer t l) = p t || existsb p l.
Proof.
  induction l as [|x r IH]; [reflexivity|]. cbn [insert_timer].
  destruct (earlier t x); cbn [existsb]; [reflexivity|].
  rewrite IH. now rewrite !orb_assoc, (orb_comm (p x)).
Qed.

Lemma existsb_by_due p l : existsb p (by_due l) = existsb p l.
Proof.
  induction l as [|x r IH]; [reflexivity|].
  cbn [by_due fold_right]. fold (by_due r).
  now rewrite existsb_insert_timer, IH.
Qed.

Lemma existsb_commit_due now l :
  existsb is_commit (filter (is_due now) l)
  = existsb (is_due now) (filter is_commit l).
Proof.
  induction l as [|x r IH]; [reflexivity|]. cbn [filter].
  destruct (is_due now x) eqn:D, (is_commit x) eqn:C; cbn [existsb];
    rewrite ?D, ?C, IH; reflexivity.
Qed.

(** [advance]: the auto-space timeouts due by [now] leave the queue; if
    there is one, the buffers are flushed. *)
Lemma advance_fields now st :
  let st' := advance now st in
  isMuted st' = isMuted st
  /\ lastPressTime st' = lastPressTime st
  /\ timeoutRef st' = timeoutRef st
  /\ commits st' = filter (fun t => negb (is_due now t)) (commits st)
  /\ inputMorse st' =
     inputMorse (if existsb (is_due now) (commits st) then commit st else st)
  /\ currentSequence st' =
     currentSequence (if existsb (is_due now) (commits st) then commit st else st).
Proof.
  unfold advance.
  pose proof (run_timers_fields
                (by_due (filter (is_due now) (timers st)))
                (set_timers (filter (fun t => negb (is_due now t)) (timers st)) st))
    as H.
  cbn zeta in *. destruct H as (H1 & H2 & H3 & H4 & H5 & H6).
  rewrite existsb_by_due, existsb_commit_due in H5, H6.
  fold (commits st) in H5, H6.
  unfold commits at 1. rewrite H1, H2, H3, H4, H5, H6.
  destruct st as [m mu sa lp cs ref au ts nx]. cbn.
  repeat split.
  - apply filter_swap.
  - unfold commit. cbn. destruct (existsb _ _); [destruct cs|]; reflexivity.
  - unfold commit. cbn. destruct (existsb _ _); [destruct cs|]; reflexivity.
Qed.

Lemma symbol_of_nonempty d : symbol_of d <> "".
Proof. unfold symbol_of. destruct (d <? 200); discriminate. Qed.

Lemma append_nonempty a b : b <> "" -> a ++ b <> "".
Proof. destruct a; [trivial | discriminate]. Qed.

Lemma commit_nonempty st :
  currentSequence st <> "" ->
  inputMorse (commit st)
  = (if (inputMorse st =? "")%string then currentSequence st
     else inputMorse st ++ " " ++ currentSequence st)
  /\ currentSequence (commit st) = "".
Proof.
  destruct st as [m mu sa lp cs ref au ts nx]. unfold commit. cbn.
  intros H. destruct cs; [congruence|]. cbn. destruct m; split; reflexivity.
Qed.

(** With a single auto-space timeout pending, nothing is flushed before
    it is due, and the buffers are flushed once it is. *)
Lemma advance_single_commit T st id d :
  commits st = [mkTimer id d Commit] ->
  (T < d ->
     inputMorse (advance T st) = inputMorse st
     /\ currentSequence (advance T st) = currentSequence st)
  /\ (d <= T ->
      inputMorse (advance T st) = inputMorse (commit st)
      /\ currentSequence (advance T st) = currentSequence (commit st)).
Proof.
  intros Hc.
  destruct (advance_fields T st) as (_ & _ & _ & _ & A5 & A6).
  rewrite Hc in A5, A6. cbn [existsb] in A5, A6. unfold is_due in A5, A6.
  cbn [due] in A5, A6. rewrite orb_false_r in A5, A6.
  split; intros HT.
  - assert (E : (d <=? T) = false) by (apply Z.leb_gt; exact HT).
    rewrite E in A5, A6. split; assumption.
  - assert (E : (d <=? T) = true) by (apply Z.leb_le; exact HT).
    rewrite E in A5, A6. split; assumption.
Qed.

Lemma run_cons now e rest st :
  run ((now, e) :: rest) st = run rest (dispatch now e (advance now st)).
Proof. reflexivity. Qed.

Lemma run_nil st : run [] st = st.
Proof. reflexivity. Qed.

(** *** Two presses, one group *)

Section TwoPresses.

Variables (st : state) (t0 t1 t2 t3 : Z).
Hypothesis unmuted : isMuted st = false.
Hypothesis at_rest : commits st = [].
Hypothesis within : t2 < t1 + 600.

(** The states after each of the four events. *)
Variables pressed1 released1 pressed2 released2 : state.
Hypothesis down1 : pressed1 = dispatch t0 MouseDown (advance t0 st).
Hypothesis up1 : released1 = dispatch t1 MouseUp (advance t1 pressed1).
Hypothesis down2 : pressed2 = dispatch t2 MouseDown (advance t2 released1).
Hypothesis up2 : released2 = dispatch t3 MouseUp (advance t3 pressed2).

Lemma pressed1_fields :
  inputMorse pressed1 = inputMorse st
  /\ currentSequence pressed1 = currentSequence st
  /\ isMuted pressed1 = false
  /\ lastPressTime pressed1 = t0
  /\ commits pressed1 = [].
Proof.
  destruct (advance_fields t0 st) as (A1 & A2 & A3 & A4 & A5 & A6).
  rewrite at_rest in A4, A5, A6. cbn [existsb filter] in A4, A5, A6.
  rewrite unmuted in A1.
  destruct (handleKeyDown_unmuted t0 _ A1) as (D1 & D2 & D3 & _ & D5 & D6 & D7).
  rewrite down1. cbn [dispatch]. rewrite A4 in D7.
  repeat split; try congruence.
  rewrite D7. now destruct (timeoutRef (advance t0 st)).
Qed.

Lemma released1_fields :
  inputMorse released1 = inputMorse st
  /\ currentSequence released1 = currentSequence st ++ symbol_of (t1 - t0)
  /\ isMuted released1 = false
  /\ exists id,
       timeoutRef released1 = Some id
       /\ commits released1 = [mkTimer id (t1 + 600) Commit].
Proof.
  destruct pressed1_fields as (P1 & P2 & P3 & P4 & P5).
  destruct (advance_fields t1 pressed1) as (A1 & A2 & A3 & A4 & A5 & A6).
  destruct (handleKeyUp_fields t1 (advance t1 pressed1))
    as (U1 & U2 & U3 & _ & _ & id & U6 & _ & U8).
  rewrite P5 in A4, A5, A6. cbn [existsb filter] in A4, A5, A6.
  rewrite A4 in U8. rewrite A2, P4 in U2.
  rewrite up1. cbn [dispatch].
  repeat split; try congruence. exists id. split; assumption.
Qed.

Lemma pressed2_fields :
  inputMorse pressed2 = inputMorse st
  /\ currentSequence pressed2 = currentSequence st ++ symbol_of (t1 - t0)
  /\ isMuted pressed2 = false
  /\ lastPressTime pressed2 = t2
  /\ commits pressed2 = [].
Proof.
  destruct released1_fields as (R1 & R2 & R3 & id & R4 & R5).
  destruct (advance_fields t2 released1) as (A1 & A2 & A3 & A4 & A5 & A6).
  assert (Hdue : is_due t2 (mkTimer id (t1 + 600) Commit) = false).
  { unfold is_due. cbn [due]. apply Z.leb_gt. exact within. }
  rewrite R5 in A4, A5, A6. cbn [existsb filter] in A4, A5, A6.
  rewrite Hdue in A4, A5, A6. cbn [orb negb] in A4, A5, A6. rewrite R3 in A1.
  destruct (handleKeyDown_unmuted t2 _ A1) as (D1 & D2 & D3 & _ & D5 & D6 & D7).
  rewrite A3, R4, A4 in D7. cbn [filter tid] in D7. rewrite Nat.eqb_refl in D7.
  cbn [negb] in D7.
  rewrite down2. cbn [dispatch].
  repeat split; congruence.
Qed.

Lemma released2_fields :
  inputMorse released2 = inputMorse st
  /\ currentSequence released2
     = currentSequence st ++ symbol_of (t1 - t0) ++ symbol_of (t3 - t2)
  /\ exists id, commits released2 = [mkTimer id (t3 + 600) Commit].
Proof.
  destruct pressed2_fields as (P1 & P2 & P3 & P4 & P5).
  destruct (advance_fields t3 pressed2) as (A1 & A2 & A3 & A4 & A5 & A6).
  destruct (handleKeyUp_fields t3 (advance t3 pressed2))
    as (U1 & U2 & U3 & _ & _ & id & U6 & _ & U8).
  rewrite P5 in A4, A5, A6. cbn [existsb filter] in A4, A5, A6.
  rewrite A4 in U8. rewrite A2, P4, A6, P2 in U2.
  rewrite up2. cbn [dispatch].
  repeat split; try congruence.
  - rewrite U2. apply append_assoc.
  - exists id. exact U8.
Qed.

End TwoPresses.

(** *** The claims about the key *)

(** C5.  On key-up the measured duration [now - lastPressTime] is
    classified as a dot below 200ms and as a dash from 200ms on, and the
    symbol is appended to the in-progress buffer; a key-down at [now]
    followed by a key-up 150ms later appends a dot, 250ms later a dash. *)
Theorem handleKeyUp_appends_symbol (now : Z) (st : state) :
  currentSequence (handleKeyUp now st)
  = currentSequence st ++ symbol_of (now - lastPressTime st)
  /\ (now - lastPressTime st < 200 -> symbol_of (now - lastPressTime st) = ".")
  /\ (200 <= now - lastPressTime st -> symbol_of (now - lastPressTime st) = "-")
  /\ (isMuted st = false ->
      currentSequence (handleKeyUp (now + 150) (handleKeyDown now st))
      = currentSequence st ++ "."
      /\ currentSequence (handleKeyUp (now + 250) (handleKeyDown now st))
         = currentSequence st ++ "-").
Proof.
  split; [apply handleKeyUp_fields|]. split; [|split].
  - intros H. unfold symbol_of. apply Z.ltb_lt in H. now rewrite H.
  - intros H. unfold symbol_of. apply Z.ltb_ge in H. now rewrite H.
  - intros Hm.
    destruct (handleKeyDown_unmuted now st Hm) as (_ & D2 & _ & _ & D5 & _).
    destruct (handleKeyUp_fields (now + 150) (handleKeyDown now st)) as (_ & U & _).
    destruct (handleKeyUp_fields (now + 250) (handleKeyDown now st)) as (_ & V & _).
    cbn zeta in *. rewrite U, V, D2, D5.
    replace (now + 150 - now) with 150 by lia.
    replace (now + 250 - now) with 250 by lia.
    split; reflexivity.
Qed.

Lemma handleKeyUp_appends_symbol_witness :
  currentSequence (handleKeyUp 1150 (handleKeyDown 1000 initial)) = "."
  /\ currentSequence (handleKeyUp 1250 (handleKeyDown 1000 initial)) = "-".
Proof.
  exact (proj2 (proj2 (proj2 (handleKeyUp_appends_symbol 1000 initial))) eq_refl).
Defined.

(** C6, as stated, fails: an auto-space timeout that fires on an empty
    buffer leaves a non-empty field as it is, without the separating
    space.  After two muted presses the timeout of the first release
    flushes both symbols; the timeout of the second release, with no
    key-down since, finds the buffer empty. *)
Lemma commit_on_empty_buffer :
  timers after_first_flush = [mkTimer 2 1000 Commit]
  /\ currentSequence after_first_flush = ""
  /\ inputMorse after_first_flush = "--"
  /\ inputMorse (advance 1000 after_first_flush) = "--"
  /\ inputMorse (advance 1000 after_first_flush)
     <> inputMorse after_first_flush ++ " " ++ currentSequence after_first_flush.
Proof. vm_compute. repeat split; discriminate. Qed.

(** C6, amended.  When the auto-space timeout fires and the in-progress
    buffer is not empty, the field becomes field, space, buffer if the
    field was non-empty and the buffer alone if it was empty, and the
    buffer is cleared; when the buffer is empty the timeout changes
    nothing. *)
Theorem commit_timer_flushes (st : state) (t : timer) :
  cb t = Commit ->
  (currentSequence st <> "" ->
     inputMorse (run_timer st t)
     = (if (inputMorse st =? "")%string then currentSequence st
        else inputMorse st ++ " " ++ currentSequence st)
     /\ currentSequence (run_timer st t) = "")
  /\ (currentSequence st = "" -> run_timer st t = st).
Proof.
  intros Hcb. unfold run_timer. rewrite Hcb. split.
  - apply commit_nonempty.
  - intros H. unfold commit. now rewrite H.
Qed.

Lemma commit_timer_flushes_witness :
  inputMorse (run_timer after_dot (mkTimer 2 700 Commit)) = "... ."
  /\ currentSequence (run_timer after_dot (mkTimer 2 700 Commit)) = ""
  /\ run_timer initial (mkTimer 2 700 Commit) = initial.
Proof.
  split; [|split].
  - apply (proj1 (commit_timer_flushes after_dot (mkTimer 2 700 Commit) eq_refl)).
    vm_compute. discriminate.
  - apply (proj1 (commit_timer_flushes after_dot (mkTimer 2 700 Commit) eq_refl)).
    vm_compute. discriminate.
  - apply (proj2 (commit_timer_flushes initial (mkTimer 2 700 Commit) eq_refl)).
    reflexivity.
Defined.

(** C7, as stated, fails: with the mute flag set a key-down before the
    pending timeout fires does not cancel it, and two presses 550ms apart
    are committed as two groups. *)
Lemma muted_keydown_keeps_timer :
  isMuted muted_after_dot = true
  /\ timeoutRef muted_after_dot = Some 2%nat
  /\ timers muted_after_dot = [mkTimer 2 700 Commit]
  /\ timers (dispatch 650 MouseDown muted_after_dot) = [mkTimer 2 700 Commit]
  /\ inputMorse
       (advance 1350
          (run [(0, MouseDown); (100, MouseUp); (200, ToggleMute);
                (650, MouseDown); (750, MouseUp)] initial))
     = ". -"
  /\ inputMorse
       (advance 1350
          (run [(0, MouseDown); (100, MouseUp); (200, ToggleMute);
                (650, MouseDown); (750, MouseUp)] initial))
     <> ".-".
Proof. vm_compute. repeat split; discriminate. Qed.

(** C7, amended.  While the mute flag is clear, a key-down before the
    pending auto-space timeout fires cancels it; so from a state with no
    other auto-space timeout pending, two presses whose second key-down
    comes less than 600ms after the first key-up are committed as one
    group: nothing is flushed before 600ms after the second key-up, and
    then both symbols are flushed together. *)
Theorem two_presses_commit_together (st : state) (t0 t1 t2 t3 : Z) :
  isMuted st = false ->
  commits st = [] ->
  t0 <= t1 -> t1 <= t2 -> t2 <= t3 ->
  t2 < t1 + 600 ->
  (exists id,
      timeoutRef (run [(t0, MouseDown); (t1, MouseUp)] st) = Some id
      /\ commits (run [(t0, MouseDown); (t1, MouseUp)] st)
         = [mkTimer id (t1 + 600) Commit])
  /\ commits (run [(t0, MouseDown); (t1, MouseUp); (t2, MouseDown)] st) = []
  /\ (forall T, T < t3 + 600 ->
       inputMorse
         (advance T
            (run [(t0, MouseDown); (t1, MouseUp); (t2, MouseDown); (t3, MouseUp)] st))
       = inputMorse st
       /\ currentSequence
            (advance T
               (run [(t0, MouseDown); (t1, MouseUp); (t2, MouseDown); (t3, MouseUp)] st))
          = currentSequence st ++ symbol_of (t1 - t0) ++ symbol_of (t3 - t2))
  /\ (forall T, t3 + 600 <= T ->
       inputMorse
         (advance T
            (run [(t0, MouseDown); (t1, MouseUp); (t2, MouseDown); (t3, MouseUp)] st))
       = (if (inputMorse st =? "")%string
          then currentSequence st ++ symbol_of (t1 - t0) ++ symbol_of (t3 - t2)
          else inputMorse st ++ " "
               ++ currentSequence st ++ symbol_of (t1 - t0) ++ symbol_of (t3 - t2))
       /\ currentSequence
            (advance T
               (run [(t0, MouseDown); (t1, MouseUp); (t2, MouseDown); (t3, MouseUp)] st))
          = "").
Proof.
  intros Hm Hrest _ _ _ Hlt. rewrite !run_cons, !run_nil.
  destruct (released1_fields st t0 t1 Hm Hrest _ _ eq_refl eq_refl)
    as (_ & _ & _ & R).
  destruct (pressed2_fields st t0 t1 t2 Hm Hrest Hlt _ _ _ eq_refl eq_refl eq_refl)
    as (_ & _ & _ & _ & P).
  destruct (released2_fields st t0 t1 t2 t3 Hm Hrest Hlt _ _ _ _
              eq_refl eq_refl eq_refl eq_refl) as (F1 & F2 & id & F3).
  split; [exact R|]. split; [exact P|].
  split; intros T HT.
  - destruct (advance_single_commit T _ _ _ F3) as (Early & _).
    destruct (Early HT) as (E1 & E2).
    rewrite E1, E2, F1, F2. split; reflexivity.
  - destruct (advance_single_commit T _ _ _ F3) as (_ & Late).
    destruct (Late HT) as (L1 & L2).
    assert (Hne : currentSequence st ++ symbol_of (t1 - t0) ++ symbol_of (t3 - t2) <> "").
    { apply append_nonempty, append_nonempty, symbol_of_nonempty. }
    rewrite <- F2 in Hne.
    destruct (commit_nonempty _ Hne) as (C1 & C2).
    rewrite L1, L2, C1, C2, F1, F2. split; reflexivity.
Qed.

Lemma two_presses_commit_together_witness :
  inputMorse
    (advance 1300
       (run [(0, MouseDown); (100, MouseUp); (400, MouseDown); (700, MouseUp)]
            initial))
  = ".-".
Proof.
  exact (proj1
           (proj2 (proj2 (proj2
              (two_presses_commit_together initial 0 100 400 700
                 eq_refl eq_refl
                 ltac:(lia) ltac:(lia) ltac:(lia)
                 eq_refl)))
              1300 ltac:(lia))).
Defined.

(** C8.  With the mute flag set a key-down changes nothing: the signal
    flag, the tone, the last-press timestamp, the pending timeouts and the
    buffered symbols are as before. *)
Theorem handleKeyDown_muted (now : Z) (st : state) :
  isMuted st = true ->
  handleKeyDown now st = st
  /\ signalActive (handleKeyDown now st) = signalActive st
  /\ audio (handleKeyDown now st) = audio st
  /\ lastPressTime (handleKeyDown now st) = lastPressTime st
  /\ timers (handleKeyDown now st) = timers st
  /\ currentSequence (handleKeyDown now st) = currentSequence st.
Proof. intros Hm. unfold handleKeyDown. rewrite Hm. repeat split. Qed.

Lemma handleKeyDown_muted_witness :
  isMuted muted_after_dot = true
  /\ timers muted_after_dot = [mkTimer 2 700 Commit]
  /\ handleKeyDown 650 muted_after_dot = muted_after_dot.
Proof.
  split; [reflexivity|]. split; [reflexivity|].
  apply (handleKeyDown_muted 650 muted_after_dot). reflexivity.
Defined.

(** C10.  [handleKeyUp] does not look at the mute flag: in every state a
    key-up clears the signal flag, runs [MorseAudio.stop], appends the
    symbol computed from the stored last-press timestamp and schedules the
    600ms auto-space timeout, which it records in [timeoutRef]. *)
Theorem handleKeyUp_unguarded (now : Z) (st : state) :
  signalActive (handleKeyUp now st) = false
  /\ audio (handleKeyUp now st) = audio (audio_stop now st)
  /\ gain (audio (handleKeyUp now st)) = gain (audio st) && negb (ctx (audio st))
  /\ currentSequence (handleKeyUp now st)
     = currentSequence st ++ symbol_of (now - lastPressTime st)
  /\ (exists id,
        timeoutRef (handleKeyUp now st) = Some id
        /\ In (mkTimer id (now + 600) Commit) (timers (handleKeyUp now st)))
  /\ isMuted (handleKeyUp now st) = isMuted st.
Proof.
  destruct (handleKeyUp_fields now st) as (_ & U2 & U3 & U4 & _ & id & U6 & U7 & _).
  split; [exact U4|]. split; [|split; [|split; [exact U2|split; [|exact U3]]]].
  - destruct st as [m mu sa lp cs ref [cx os gn] ts nx].
    unfold handleKeyUp. destruct cx; reflexivity.
  - destruct st as [m mu sa lp cs ref [cx os gn] ts nx].
    unfold handleKeyUp. destruct cx; cbn;
      [apply eq_sym, andb_false_r | apply eq_sym, andb_true_r].
  - exists id. split; [exact U6 | exact U7].
Qed.

(** A key-up while muted and with no press active: the stale timestamp
    makes the symbol a dash. *)
Example handleKeyUp_muted_idle :
  isMuted (advance 5000 muted_after_dot) = true
  /\ signalActive (advance 5000 muted_after_dot) = false
  /\ inputMorse (advance 5000 muted_after_dot) = "."
  /\ currentSequence (handleKeyUp 5000 (advance 5000 muted_after_dot)) = "-"
  /\ timers (handleKeyUp 5000 (advance 5000 muted_after_dot))
     = [mkTimer 3 5050 Teardown; mkTimer 4 5600 Commit].
Proof. vm_compute. repeat split. Qed.

End KeyerProperties.

(* ===================================================================== *)
(** ** Further properties of the transcoder                              *)
(* ===================================================================== *)

Section TranscoderShape.

Lemma trimStart_head s :
  trimStart s = ""
  \/ exists c r, trimStart s = String c r /\ is_white_space c = false.
Proof.
  induction s as [|c r IH]; [now left|]. cbn [trimStart].
  destruct (is_white_space c) eqn:E; [exact IH|].
  right. exists c, r. split; [reflexivity | exact E].
Qed.

Lemma trimEnd_head c r :
  is_white_space c = false -> exists r', trimEnd (String c r) = String c r'.
Proof.
  intros E. cbn [trimEnd]. rewrite E.
  destruct (trimEnd r) as [|d k]; eauto.
Qed.

(** A trimmed string is empty or starts with a character that is not white
    space. *)
Lemma trim_head s :
  trim s = "" \/ exists c r, trim s = String c r /\ is_white_space c = false.
Proof.
  unfold trim. destruct (trimStart_head s) as [-> | (c & r & -> & E)].
  - now left.
  - right. destruct (trimEnd_head c r E) as (r' & ->). exists c, r'. now split.
Qed.

Lemma last_unit_trimEnd s c :
  last_unit (trimEnd s) = Some c -> is_white_space c = false.
Proof.
  revert c. induction s as [|d r IH]; intros c; [discriminate|].
  cbn [trimEnd]. destruct (trimEnd r) as [|e k] eqn:E.
  - destruct (is_white_space d) eqn:W; [discriminate|].
    cbn. intros [= <-]. exact W.
  - cbn [last_unit]. apply IH.
Qed.

Lemma all_units_trimStart p s :
  all_units p s = true -> all_units p (trimStart s) = true.
Proof.
  induction s as [|c r IH]; [trivial|]. cbn [trimStart].
  destruct (is_white_space c); [|trivial].
  cbn [all_units]. intros H. apply andb_true_iff in H. now apply IH.
Qed.

Lemma all_units_trimEnd p s :
  all_units p s = true -> all_units p (trimEnd s) = true.
Proof.
  induction s as [|c r IH]; [trivial|]. cbn [trimEnd all_units].
  intros H. apply andb_true_iff in H. destruct H as [Hc Hr].
  specialize (IH Hr). destruct (trimEnd r) as [|d k].
  - destruct (is_white_space c); [reflexivity|]. cbn. now rewrite Hc.
  - cbn [all_units] in *. now rewrite Hc.
Qed.

Lemma all_units_concat p (sep : ascii) toks :
  p sep = true -> forallb (all_units p) toks = true ->
  all_units p (String.concat (String sep EmptyString) toks) = true.
Proof.
  intros Hsep. induction toks as [|x [|y r] IH]; [reflexivity| |].
  - cbn. now rewrite andb_true_r.
  - intros H. cbn [forallb] in H. apply andb_true_iff in H. destruct H as [Hx Hr].
    change (String.concat (String sep "") (x :: y :: r))
      with (x ++ String sep (String.concat (String sep "") (y :: r))).
    rewrite all_units_app. cbn [all_units]. now rewrite Hx, Hsep, (IH Hr).
Qed.

Lemma unit_token_alphabet (u : ascii) :
  all_units morse_unit (join_item (encode_unit (String u EmptyString))) = true.
Proof. destruct u as [[] [] [] [] [] [] [] []]; vm_compute; reflexivity. Qed.

Lemma tokens_alphabet upper : forallb (all_units morse_unit) (tokens upper) = true.
Proof.
  induction upper as [|u r IH]; [reflexivity|].
  rewrite tokens_cons. cbn [forallb]. now rewrite unit_token_alphabet, IH.
Qed.

(** X7.  Whatever the text, [encodeMorse] returns a line made of dots,
    dashes, slashes and spaces only, which neither starts nor ends with a
    space. *)
Theorem encodeMorse_shape (text : string) :
  all_units morse_unit (encodeMorse text) = true
  /\ first_unit (encodeMorse text) <> Some " "%char
  /\ last_unit (encodeMorse text) <> Some " "%char.
Proof.
  rewrite encodeMorse_tokens. split; [|split].
  - unfold trim. apply all_units_trimEnd, all_units_trimStart.
    apply (all_units_concat morse_unit " "); [reflexivity | apply tokens_alphabet].
  - destruct (trim_head (String.concat " " (tokens (toUpperCase text))))
      as [-> | (c & r & -> & E)]; [discriminate|].
    cbn. intros [= ->]. discriminate E.
  - intros H. unfold trim in H. apply last_unit_trimEnd in H. discriminate H.
Qed.

Lemma tokens_nil upper : tokens upper = [] -> upper = "".
Proof. destruct upper; [trivial|]. rewrite tokens_cons. discriminate. Qed.

Lemma toUpperCase_nil s : toUpperCase s = "" -> s = "".
Proof. destruct s; [trivial | discriminate]. Qed.

(** A trimmed line without a non-empty token is empty. *)
Lemma trim_without_words s :
  words (split " " (trim s)) = [] -> trim s = "".
Proof.
  destruct (trim_head s) as [H | (c & r & H & E)]; [trivial|].
  rewrite H, split_cons.
  destruct (Ascii.eqb c " ") eqn:Sp.
  - apply space_is_white_space in Sp. congruence.
  - destruct (split " " r); cbn; discriminate.
Qed.

(** X6.  On text of code units below 128, [encodeMorse] returns the empty
    string exactly when no character of the text is supported, and that is
    exactly when the Morse output pane shows its placeholder. *)
Theorem encodeMorse_empty_iff (text : string) :
  all_units is_ascii text = true ->
  (encodeMorse text = "" <-> drop_absent text = "")
  /\ (morse_output text = Placeholder "... --- ..." <-> drop_absent text = "").
Proof.
  intros _.
  assert (Hiff : encodeMorse text = "" <-> drop_absent text = "").
  { pose proof (words_trim_concat _ (tokens_solid (toUpperCase text))) as Hw.
    rewrite <- encodeMorse_tokens in Hw. split; intros H.
    - rewrite H in Hw. cbn in Hw. rewrite <- tokens_drop_absent in Hw.
      symmetry in Hw. now apply toUpperCase_nil, tokens_nil.
    - rewrite <- tokens_drop_absent, H in Hw. cbn [toUpperCase] in Hw.
      rewrite encodeMorse_tokens in *. now apply trim_without_words. }
  split; [exact Hiff|]. rewrite <- Hiff. unfold morse_output. cbn [truthy].
  destruct (encodeMorse text) as [|c r]; cbn; split; congruence.
Qed.

Lemma encodeMorse_empty_iff_witness :
  encodeMorse "?!" = "" /\ morse_output "?!" = Placeholder "... --- ...".
Proof.
  split.
  - apply (proj1 (encodeMorse_empty_iff "?!" eq_refl)). reflexivity.
  - apply (proj2 (encodeMorse_empty_iff "?!" eq_refl)). reflexivity.
Defined.

(** X4.  [decodeMorse] never returns the empty string, so the plain-text
    pane always shows the decoded text: its placeholder is never rendered,
    not even for the empty Morse input. *)
Theorem plain_output_always_shown (morse : string) :
  decodeMorse morse <> ""
  /\ plain_output morse = Shown (decodeMorse morse).
Proof.
  pose proof (decodeMorse_nonempty morse) as H. split; [exact H|].
  unfold plain_output. cbn [truthy].
  destruct (decodeMorse morse); [congruence | reflexivity].
Qed.

Lemma append_empty_r (s : string) : s ++ "" = s.
Proof. induction s as [|c r IH]; [reflexivity|]. simpl. now rewrite IH. Qed.

Lemma concat_empty_cons x r :
  String.concat "" (x :: r) = x ++ String.concat "" r.
Proof. destruct r; [symmetry; apply append_empty_r | reflexivity]. Qed.

Lemma code_is_token code char :
  own REVERSE_MORSE_MAP code = Some char ->
  solid code && nonempty code = true.
Proof.
  intros H. apply own_In in H.
  assert (Hall :
    forallb (fun kv => solid (fst kv) && nonempty (fst kv)) REVERSE_MORSE_MAP = true)
    by (vm_compute; reflexivity).
  rewrite forallb_forall in Hall. exact (Hall _ H).
Qed.

Lemma code_decodes code char :
  own REVERSE_MORSE_MAP code = Some char -> decode_token code = VString char.
Proof.
  intros H. apply own_In in H.
  assert (Hall :
    forallb (fun kv => match decode_token (fst kv) with
                       | VString back => (back =? snd kv)%string
                       | _ => false
                       end) REVERSE_MORSE_MAP = true) by (vm_compute; reflexivity).
  rewrite forallb_forall in Hall. specialize (Hall _ H). cbn [fst snd] in Hall.
  clear H.
  destruct (decode_token code) as [|back| |]; try discriminate Hall.
  apply String.eqb_eq in Hall. subst back. reflexivity.
Qed.

(** What the inverse table holds under a code: one upper-case character
    that encodes back to the code. *)
Lemma code_encodes_back code char :
  own REVERSE_MORSE_MAP code = Some char ->
  exists u, char = String u EmptyString
            /\ toUpperCase_unit u = u
            /\ join_item (encode_unit (String u EmptyString)) = code.
Proof.
  intros H. apply own_In in H.
  assert (Hall :
    forallb (fun kv =>
               match snd kv with
               | String u EmptyString =>
                   Ascii.eqb (toUpperCase_unit u) u
                   && (join_item (encode_unit (String u EmptyString)) =? fst kv)%string
               | _ => false
               end) REVERSE_MORSE_MAP = true) by (vm_compute; reflexivity).
  rewrite forallb_forall in Hall. specialize (Hall _ H). cbn [fst snd] in Hall.
  clear H. rename Hall into Hu.
  destruct char as [|u [|? ?]]; try discriminate Hu.
  apply andb_true_iff in Hu. destruct Hu as [Hup Henc].
  apply Ascii.eqb_eq in Hup. apply String.eqb_eq in Henc.
  exists u. split; [reflexivity|]. split; [exact Hup | exact Henc].
Qed.

Lemma is_code_own code :
  is_code code = true -> exists char, own REVERSE_MORSE_MAP code = Some char.
Proof.
  unfold is_code. destruct (own REVERSE_MORSE_MAP code) as [char|].
  - intros _. exists char. reflexivity.
  - discriminate.
Qed.

Lemma codes_are_tokens codes :
  forallb is_code codes = true ->
  forallb (fun t => solid t && nonempty t) codes = true.
Proof.
  induction codes as [|code r IH]; [reflexivity|]. cbn [forallb].
  intros H. apply andb_true_iff in H. destruct H as [Hc Hr].
  apply is_code_own in Hc. destruct Hc as [char E].
  rewrite (code_is_token _ _ E). exact (IH Hr).
Qed.

(** The text decoded from a list of codes is already in upper case and
    encodes, character by character, to that list. *)
Lemma decoded_codes codes :
  forallb is_code codes = true ->
  toUpperCase (String.concat "" (map join_item (map decode_token codes)))
  = String.concat "" (map join_item (map decode_token codes))
  /\ tokens (String.concat "" (map join_item (map decode_token codes))) = codes.
Proof.
  induction codes as [|code r IH]; [split; reflexivity|]. cbn [forallb map].
  intros H. apply andb_true_iff in H. destruct H as [Hc Hr].
  destruct (IH Hr) as [IH1 IH2]. clear IH.
  apply is_code_own in Hc. destruct Hc as [char E].
  pose proof (code_decodes _ _ E) as Hd.
  destruct (code_encodes_back _ _ E) as (u & -> & Hup & Henc).
  rewrite concat_empty_cons, Hd. cbn [join_item ToString append toUpperCase].
  rewrite Hup, IH1, tokens_cons, Henc, IH2. split; reflexivity.
Qed.

(** X5.  The round trip from Morse and back: a line of one or more codes
    of the alphabet joined by single spaces decodes to a text that encodes
    to the same line. *)
Theorem encode_decode_codes (codes : list string) :
  codes <> [] ->
  forallb is_code codes = true ->
  encodeMorse (decodeMorse (String.concat " " codes)) = String.concat " " codes.
Proof.
  intros Hne Hall.
  pose proof (codes_are_tokens _ Hall) as Htok.
  destruct (decoded_codes _ Hall) as [Hup Hback].
  rewrite decodeMorse_tokens.
  rewrite (split_concat _ Hne (solid_of_token_check _ Htok)).
  rewrite encodeMorse_tokens, Hup, Hback.
  apply trim_concat_tokens, Htok.
Qed.

Lemma encode_decode_codes_witness :
  encodeMorse (decodeMorse (String.concat " " ["..."; "---"; "..."; "/"; "--..."]))
  = String.concat " " ["..."; "---"; "..."; "/"; "--..."].
Proof.
  apply (encode_decode_codes ["..."; "---"; "..."; "/"; "--..."]);
    [discriminate | vm_compute; reflexivity].
Defined.

(** X3.  On input none of whose tokens names a member inherited from
    [Object.prototype], [decodeMorse] emits one character per token of the
    split, in order: the character the inverse table holds for the token
    (a space for [/]), and [?] for any other token, the empty one included. *)
Theorem decodeMorse_plain_tokens (morse : string) :
  Forall (fun code => Object_prototype code = VUndefined) (split " " morse) ->
  decodeMorse morse = String.concat "" (map plain_char (split " " morse))
  /\ String.length (decodeMorse morse) = length (split " " morse).
Proof.
  intros Hall. split; [|exact (decodeMorse_one_per_token morse Hall)].
  rewrite decodeMorse_tokens. f_equal.
  induction Hall as [|code r Hc _ IH]; [reflexivity|].
  cbn [map]. rewrite IH. f_equal.
  destruct (decode_token_plain code Hc) as [-> _].
  unfold plain_char. cbn [join_item ToString]. reflexivity.
Qed.

Lemma decodeMorse_plain_tokens_witness :
  decodeMorse "... ---  .-.-.- /"
  = String.concat "" (map plain_char (split " " "... ---  .-.-.- /"))
  /\ String.length (decodeMorse "... ---  .-.-.- /") = 5%nat.
Proof.
  exact (decodeMorse_plain_tokens "... ---  .-.-.- /" ltac:(repeat constructor)).
Defined.

End TranscoderShape.

(* ===================================================================== *)
(** ** Further properties of the telegraph key                           *)
(* ===================================================================== *)

Section KeyerInvariants.

(** *** The audio object under timeouts *)

Lemma teardown_audio st :
  signalActive (teardown st) = signalActive st
  /\ ctx (audio (teardown st)) = ctx (audio st)
  /\ gain (audio (teardown st)) = gain (audio st)
  /\ oscillator (audio (teardown st)) = false.
Proof.
  destruct st as [m mu sa lp cs ref [cx os gn] ts nx].
  unfold teardown. cbn. destruct os; repeat split.
Qed.

Lemma run_timers_audio (batch : list timer) st :
  signalActive (fold_left run_timer batch st) = signalActive st
  /\ ctx (audio (fold_left run_timer batch st)) = ctx (audio st)
  /\ gain (audio (fold_left run_timer batch st)) = gain (audio st)
  /\ oscillator (audio (fold_left run_timer batch st))
     = (if existsb is_teardown batch then false else oscillator (audio st)).
Proof.
  revert st. induction batch as [|t r IH]; intros st; [repeat split|].
  cbn [fold_left existsb]. destruct (IH (run_timer st t)) as (I1 & I2 & I3 & I4).
  rewrite I1, I2, I3, I4. clear IH I1 I2 I3 I4.
  unfold run_timer, is_teardown at 2. destruct (cb t); cbn [orb].
  - destruct (commit_frame st) as (_ & C2 & _ & _ & _ & C6).
    rewrite C2, C6. repeat split.
  - destruct (teardown_audio st) as (T1 & T2 & T3 & T4).
    rewrite T1, T2, T3, T4. repeat split.
    destruct (existsb is_teardown r); reflexivity.
Qed.

Lemma existsb_filter {A} (p q : A -> bool) l :
  existsb p (filter q l) = existsb (fun x => p x && q x) l.
Proof.
  induction l as [|x r IH]; [reflexivity|]. cbn [filter existsb].
  destruct (q x); cbn [existsb]; rewrite IH.
  - now rewrite andb_true_r.
  - now rewrite andb_false_r.
Qed.

(** [advance] and the audio object: the flags are kept, and the oscillator
    is dropped if a teardown was due. *)
Lemma advance_audio now st :
  signalActive (advance now st) = signalActive st
  /\ ctx (audio (advance now st)) = ctx (audio st)
  /\ gain (audio (advance now st)) = gain (audio st)
  /\ oscillator (audio (advance now st))
     = (if existsb (fun t => is_teardown t && is_due now t) (timers st)
        then false else oscillator (audio st)).
Proof.
  unfold advance.
  destruct (run_timers_audio
              (by_due (filter (is_due now) (timers st)))
              (set_timers (filter (fun t => negb (is_due now t)) (timers st)) st))
    as (H1 & H2 & H3 & H4).
  rewrite existsb_by_due, existsb_filter in H4.
  rewrite H1, H2, H3, H4. repeat split.
Qed.

(** *** The tone and the signal lamp *)

(** The gain target is up exactly while the signal flag is set, and it is
    never up before the audio context exists. *)
Lemma lamp_invariant_dispatch now e st :
  gain (audio st) = signalActive st ->
  (ctx (audio st) = false -> gain (audio st) = false) ->
  gain (audio (dispatch now e st)) = signalActive (dispatch now e st)
  /\ (ctx (audio (dispatch now e st)) = false ->
      gain (audio (dispatch now e st)) = false).
Proof.
  destruct st as [m mu sa lp cs ref [cx os gn] ts nx]. cbn [audio gain ctx signalActive].
  intros H1 H2. subst sa.
  destruct e; cbn [dispatch]; unfold handleKeyDown, handleKeyUp;
    destruct mu, cx, gn, ref; cbn in *;
    try (specialize (H2 eq_refl); discriminate H2);
    (split; [reflexivity | intros H; first [reflexivity | discriminate H]]).
Qed.

Lemma lamp_invariant_run trace : forall st,
  gain (audio st) = signalActive st ->
  (ctx (audio st) = false -> gain (audio st) = false) ->
  gain (audio (run trace st)) = signalActive (run trace st).
Proof.
  induction trace as [|[now e] rest IH]; intros st H1 H2; [exact H1|].
  rewrite run_cons.
  destruct (advance_audio now st) as (A1 & A2 & A3 & _).
  destruct (lamp_invariant_dispatch now e (advance now st)) as (D1 & D2).
  - now rewrite A1, A3.
  - now rewrite A2, A3.
  - now apply IH.
Qed.

(** X8.  In every state the component reaches, whatever the events and
    their times, the gain target of the tone is up exactly while the signal
    flag (the lamp) is set. *)
Theorem tone_follows_lamp (trace : list (Z * event)) :
  gain (audio (run trace initial)) = signalActive (run trace initial).
Proof. apply lamp_invariant_run; [reflexivity | intros _; reflexivity]. Qed.

(** *** A muted session *)

Lemma muted_dispatch now e st :
  is_toggle e = false ->
  isMuted st = true -> signalActive st = false -> gain (audio st) = false ->
  isMuted (dispatch now e st) = true
  /\ signalActive (dispatch now e st) = false
  /\ gain (audio (dispatch now e st)) = false.
Proof.
  destruct st as [m mu sa lp cs ref [cx os gn] ts nx].
  cbn [isMuted audio gain signalActive]. intros He -> -> ->.
  destruct e; try discriminate He; cbn [dispatch]; unfold handleKeyDown, handleKeyUp;
    destruct cx; cbn; repeat split.
Qed.

(** X9.  While the mute flag stays set, no sequence of presses, releases
    and edits sets the signal flag or raises the gain: a muted key is dark
    and silent. *)
Theorem muted_key_stays_silent (trace : list (Z * event)) (st : state) :
  forallb (fun te => negb (is_toggle (snd te))) trace = true ->
  isMuted st = true -> signalActive st = false -> gain (audio st) = false ->
  isMuted (run trace st) = true
  /\ signalActive (run trace st) = false
  /\ gain (audio (run trace st)) = false.
Proof.
  revert st. induction trace as [|[now e] rest IH]; intros st Ht Hm Hs Hg.
  - repeat split; assumption.
  - cbn [forallb snd] in Ht. apply andb_true_iff in Ht. destruct Ht as [He Hr].
    apply negb_true_iff in He. rewrite run_cons.
    destruct (advance_audio now st) as (A1 & _ & A3 & _).
    destruct (advance_fields now st) as (F1 & _).
    destruct (muted_dispatch now e (advance now st) He) as (D1 & D2 & D3);
      try congruence.
    now apply IH.
Qed.

Lemma muted_key_stays_silent_witness :
  signalActive
    (run [(700, MouseDown); (900, MouseUp); (950, MouseLeave)] muted_after_dot)
  = false
  /\ gain (audio
       (run [(700, MouseDown); (900, MouseUp); (950, MouseLeave)] muted_after_dot))
     = false.
Proof.
  exact (proj2
           (muted_key_stays_silent
              [(700, MouseDown); (900, MouseUp); (950, MouseLeave)]
              muted_after_dot eq_refl eq_refl eq_refl eq_refl)).
Defined.

(** *** The keyed symbols *)

Lemma keep_units_app p a b :
  keep_units p (a ++ b) = keep_units p a ++ keep_units p b.
Proof.
  induction a as [|c r IH]; [reflexivity|]. cbn [append keep_units].
  destruct (p c); cbn [append]; now rewrite IH.
Qed.

Lemma despace_symbol d : despace (symbol_of d) = symbol_of d.
Proof. unfold symbol_of. destruct (d <? 200); reflexivity. Qed.

Lemma sent_commit st : sent (commit st) = sent st.
Proof.
  destruct st as [m mu sa lp cs ref au ts nx]. unfold sent, commit. cbn.
  destruct cs as [|c r]; [reflexivity|]. cbn [String.eqb negb].
  cbn [inputMorse currentSequence setCurrentSequence setInputMorse].
  rewrite append_empty_r. destruct m as [|d m']; [reflexivity|].
  cbn [String.eqb negb]. unfold despace.
  rewrite !keep_units_app. reflexivity.
Qed.

Lemma sent_teardown st : sent (teardown st) = sent st.
Proof.
  unfold sent. destruct (teardown_frame st) as (T1 & T2 & _). now rewrite T1, T2.
Qed.

Lemma sent_run_timers batch st : sent (fold_left run_timer batch st) = sent st.
Proof.
  revert st. induction batch as [|t r IH]; intros st; [reflexivity|].
  cbn [fold_left]. rewrite IH. unfold run_timer.
  destruct (cb t); [apply sent_commit | apply sent_teardown].
Qed.

Lemma sent_advance now st : sent (advance now st) = sent st.
Proof. unfold advance. rewrite sent_run_timers. reflexivity. Qed.

(** X10.  Time passing, with whatever timeouts it fires, neither loses nor
    duplicates nor reorders a keyed symbol: the field followed by the
    buffer, spaces apart, is the same before and after, also when several
    auto-space timeouts are pending at once. *)
Theorem advance_keeps_symbols (now : Z) (st : state) :
  sent (advance now st) = sent st
  /\ forall batch, sent (fold_left run_timer batch st) = sent st.
Proof. split; [apply sent_advance | intros batch; apply sent_run_timers]. Qed.

Lemma sent_handleKeyUp now st :
  sent (handleKeyUp now st) = sent st ++ symbol_of (now - lastPressTime st).
Proof.
  destruct (handleKeyUp_fields now st) as (U1 & U2 & _).
  unfold sent. rewrite U1, U2. unfold despace.
  rewrite !keep_units_app. fold (despace (symbol_of (now - lastPressTime st))).
  rewrite despace_symbol. apply eq_sym, append_assoc.
Qed.

Lemma sent_handleKeyDown now st : sent (handleKeyDown now st) = sent st.
Proof.
  destruct (isMuted st) eqn:Hm.
  - unfold handleKeyDown. now rewrite Hm.
  - destruct (handleKeyDown_unmuted now st Hm) as (D1 & D2 & _).
    unfold sent. now rewrite D1, D2.
Qed.

Lemma symbol_is_dot_or_dash d :
  all_units dot_or_dash (symbol_of d) = true /\ String.length (symbol_of d) = 1%nat.
Proof. unfold symbol_of. destruct (d <? 200); split; reflexivity. Qed.

Lemma length_append a b :
  String.length (a ++ b) = (String.length a + String.length b)%nat.
Proof. induction a as [|c r IH]; [reflexivity|]. cbn. now rewrite IH. Qed.

(** X11.  Over any sequence of presses, releases and mute toggles, every
    release keys exactly one dot or dash, muted or not, and nothing keyed
    before is lost: the keyed symbols grow by one symbol per release. *)
Theorem releases_key_one_symbol_each (trace : list (Z * event)) (st : state) :
  forallb (fun te => press_event (snd te)) trace = true ->
  exists added,
    sent (run trace st) = sent st ++ added
    /\ all_units dot_or_dash added = true
    /\ String.length added
       = length (filter (fun te => is_release (snd te)) trace).
Proof.
  revert st. induction trace as [|[now e] rest IH]; intros st Ht.
  - exists "". rewrite append_empty_r. repeat split.
  - cbn [forallb snd] in Ht. apply andb_true_iff in Ht. destruct Ht as [He Hr].
    rewrite run_cons.
    destruct (IH (dispatch now e (advance now st)) Hr) as (added & I1 & I2 & I3).
    cbn [filter snd].
    assert (Hstep :
      exists sym,
        sent (dispatch now e (advance now st)) = sent st ++ sym
        /\ all_units dot_or_dash sym = true
        /\ String.length sym = (if is_release e then 1 else 0)%nat).
    { destruct e; try discriminate He; cbn [dispatch is_release].
      - exists "". rewrite sent_handleKeyDown, sent_advance, append_empty_r.
        repeat split.
      - exists (symbol_of (now - lastPressTime (advance now st))).
        rewrite sent_handleKeyUp, sent_advance.
        split; [reflexivity | apply symbol_is_dot_or_dash].
      - exists "". rewrite sent_handleKeyDown, sent_advance, append_empty_r.
        repeat split.
      - exists (symbol_of (now - lastPressTime (advance now st))).
        rewrite sent_handleKeyUp, sent_advance.
        split; [reflexivity | apply symbol_is_dot_or_dash].
      - exists "". unfold sent at 1. cbn [inputMorse currentSequence setIsMuted].
        fold (sent (advance now st)).
        rewrite sent_advance, append_empty_r. repeat split. }
    destruct Hstep as (sym & S1 & S2 & S3).
    exists (sym ++ added). rewrite I1, S1. split; [apply append_assoc|]. split.
    + rewrite all_units_app, S2, I2. reflexivity.
    + rewrite length_append, S3, I3. destruct (is_release e); reflexivity.
Qed.

Lemma releases_key_one_symbol_each_witness :
  exists added,
    sent (run [(0, ToggleMute); (100, MouseDown); (200, MouseUp);
               (300, TouchStart); (400, TouchEnd)] initial)
    = sent initial ++ added
    /\ all_units dot_or_dash added = true
    /\ String.length added = 2%nat.
Proof.
  exact (releases_key_one_symbol_each
           [(0, ToggleMute); (100, MouseDown); (200, MouseUp);
            (300, TouchStart); (400, TouchEnd)] initial eq_refl).
Defined.

Lemma commit_clears st : currentSequence (commit st) = "".
Proof.
  destruct st as [m mu sa lp cs ref au ts nx]. unfold commit. cbn.
  destruct cs; reflexivity.
Qed.

Lemma existsb_last {A} (p : A -> bool) l x :
  p x = true -> existsb p (l ++ [x]) = true.
Proof. intros H. rewrite existsb_app. cbn. now rewrite H, orb_true_r. Qed.

(** X12.  A keyed symbol does not stay in the buffer: 600ms after a
    key-up, if no event came in between, the in-progress buffer is empty and
    the field holds every symbol keyed so far, the new one last. *)
Theorem release_is_committed (now T : Z) (st : state) :
  now + 600 <= T ->
  currentSequence (advance T (handleKeyUp now st)) = ""
  /\ despace (inputMorse (advance T (handleKeyUp now st)))
     = sent st ++ symbol_of (now - lastPressTime st).
Proof.
  intros HT.
  destruct (handleKeyUp_fields now st) as (_ & _ & _ & _ & _ & id & _ & _ & U8).
  destruct (advance_fields T (handleKeyUp now st)) as (_ & _ & _ & _ & _ & A6).
  assert (Hdue : existsb (is_due T) (commits (handleKeyUp now st)) = true).
  { rewrite U8. apply existsb_last. unfold is_due. cbn [due]. now apply Z.leb_le. }
  rewrite Hdue in A6. rewrite commit_clears in A6.
  split; [exact A6|].
  rewrite <- sent_handleKeyUp, <- (sent_advance T (handleKeyUp now st)).
  unfold sent at 1. now rewrite A6, append_empty_r.
Qed.

Lemma release_is_committed_witness :
  currentSequence (advance 700 (handleKeyUp 100 (handleKeyDown 0 initial))) = ""
  /\ despace (inputMorse (advance 700 (handleKeyUp 100 (handleKeyDown 0 initial))))
     = sent (handleKeyDown 0 initial)
       ++ symbol_of (100 - lastPressTime (handleKeyDown 0 initial)).
Proof.
  exact (release_is_committed 100 700 (handleKeyDown 0 initial) ltac:(lia)).
Defined.

(** *** The oscillator *)

Lemma advance_timers now st :
  timers (advance now st) = filter (fun t => negb (is_due now t)) (timers st).
Proof.
  unfold advance.
  destruct (run_timers_fields
              (by_due (filter (is_due now) (timers st)))
              (set_timers (filter (fun t => negb (is_due now t)) (timers st)) st))
    as (_ & _ & _ & H & _).
  cbn zeta in H. rewrite H. reflexivity.
Qed.

Lemma handleKeyDown_audio now st :
  isMuted st = false ->
  signalActive (handleKeyDown now st) = true
  /\ ctx (audio (handleKeyDown now st)) = true
  /\ gain (audio (handleKeyDown now st)) = true
  /\ oscillator (audio (handleKeyDown now st)) = true
  /\ timers (handleKeyDown now st)
     = match timeoutRef st with
       | Some id => filter (fun t => negb (Nat.eqb (tid t) id)) (timers st)
       | None => timers st
       end.
Proof.
  destruct st as [m mu sa lp cs ref [cx os gn] ts nx]. cbn [isMuted].
  intros ->. unfold handleKeyDown. destruct cx, ref; cbn; repeat split.
Qed.

Lemma handleKeyUp_with_context now st :
  ctx (audio st) = true ->
  timers (handleKeyUp now st)
  = (timers st ++ [mkTimer (next_timer st) (now + 50) Teardown;
                   mkTimer (S (next_timer st)) (now + 600) Commit])%list
  /\ timeoutRef (handleKeyUp now st) = Some (S (next_timer st)).
Proof.
  destruct st as [m mu sa lp cs ref [cx os gn] ts nx]. cbn [audio ctx].
  intros ->. unfold handleKeyUp. cbn. split; [|reflexivity].
  now rewrite <- app_assoc.
Qed.

Lemma teardown_due_drops now st t :
  In t (timers st) -> cb t = Teardown -> due t <= now ->
  oscillator (audio (advance now st)) = false.
Proof.
  intros Hin Hcb Hdue. destruct (advance_audio now st) as (_ & _ & _ & H).
  rewrite H. clear H.
  assert (E : existsb (fun t => is_teardown t && is_due now t) (timers st) = true).
  { apply existsb_exists. exists t. split; [exact Hin|].
    unfold is_teardown, is_due. rewrite Hcb. cbn [andb]. now apply Z.leb_le. }
  now rewrite E.
Qed.

Lemma handleKeyUp_keeps_oscillator now st :
  ctx (audio (handleKeyUp now st)) = ctx (audio st)
  /\ oscillator (audio (handleKeyUp now st)) = oscillator (audio st).
Proof.
  destruct st as [m mu sa lp cs ref [cx os gn] ts nx].
  unfold handleKeyUp. destruct cx; cbn; split; reflexivity.
Qed.

(** With no audio context there is no oscillator. *)
Lemma context_invariant_dispatch now e st :
  (ctx (audio st) = false -> oscillator (audio st) = false) ->
  ctx (audio (dispatch now e st)) = false ->
  oscillator (audio (dispatch now e st)) = false.
Proof.
  destruct st as [m mu sa lp cs ref [cx os gn] ts nx]. cbn [audio ctx oscillator].
  intros H. destruct e; cbn [dispatch]; unfold handleKeyDown, handleKeyUp;
    destruct mu, cx, sa, ref; cbn in *; intros H'; auto; discriminate H'.
Qed.

Lemma context_invariant_run trace : forall st,
  (ctx (audio st) = false -> oscillator (audio st) = false) ->
  ctx (audio (run trace st)) = false -> oscillator (audio (run trace st)) = false.
Proof.
  induction trace as [|[now e] rest IH]; intros st H; [exact H|].
  rewrite run_cons. apply IH. apply context_invariant_dispatch.
  destruct (advance_audio now st) as (_ & A2 & _ & A4).
  rewrite A2, A4. intros Hc.
  destruct (existsb _ (timers st)); [reflexivity | now apply H].
Qed.

(** X13.  In every state the component reaches, 50ms after a key-up, if no
    event came in between, the audio object holds no oscillator: the
    teardown has stopped and dropped it. *)
Theorem oscillator_dropped_after_release
    (trace : list (Z * event)) (now T : Z) :
  now + 50 <= T ->
  oscillator (audio (advance T (handleKeyUp now (run trace initial)))) = false.
Proof.
  intros HT. destruct (ctx (audio (run trace initial))) eqn:Hc.
  - destruct (handleKeyUp_with_context now _ Hc) as (Ht & _).
    apply (teardown_due_drops T _
             (mkTimer (next_timer (run trace initial)) (now + 50) Teardown));
      [|reflexivity|exact HT].
    rewrite Ht. apply in_or_app. right. now left.
  - pose proof (context_invariant_run trace initial (fun _ => eq_refl) Hc) as Ho.
    destruct (advance_audio T (handleKeyUp now (run trace initial)))
      as (_ & _ & _ & A4).
    rewrite A4. destruct (existsb _ _); [reflexivity|].
    destruct (handleKeyUp_keeps_oscillator now (run trace initial)) as [_ H].
    rewrite H. exact Ho.
Qed.

Lemma oscillator_dropped_after_release_witness :
  oscillator
    (audio (advance 150 (handleKeyUp 100 (run [(0, MouseDown)] initial))))
  = false.
Proof.
  exact (oscillator_dropped_after_release [(0, MouseDown)] 100 150 ltac:(lia)).
Defined.

Section Repress.

Variables (st : state) (t0 t1 t2 T : Z).
Hypothesis unmuted : isMuted st = false.
Hypothesis soon : t2 < t1 + 50.
Hypothesis later : t1 + 50 <= T.

(** The states after the press, the release and the second press. *)
Variables pressed1 released1 pressed2 : state.
Hypothesis down1 : pressed1 = dispatch t0 MouseDown (advance t0 st).
Hypothesis up1 : released1 = dispatch t1 MouseUp (advance t1 pressed1).
Hypothesis down2 : pressed2 = dispatch t2 MouseDown (advance t2 released1).

Lemma repress_released1 :
  isMuted released1 = false
  /\ exists n,
       timeoutRef released1 = Some (S n)
       /\ In (mkTimer n (t1 + 50) Teardown) (timers released1).
Proof.
  destruct (advance_fields t0 st) as (A1 & _).
  rewrite unmuted in A1.
  destruct (handleKeyDown_unmuted t0 _ A1) as (_ & _ & D3 & _).
  destruct (handleKeyDown_audio t0 _ A1) as (_ & D4 & _).
  assert (E1 : pressed1 = handleKeyDown t0 (advance t0 st)) by exact down1.
  rewrite <- E1 in D3, D4.
  destruct (advance_fields t1 pressed1) as (B1 & _).
  destruct (advance_audio t1 pressed1) as (_ & B2 & _).
  rewrite D3 in B1. rewrite D4 in B2.
  destruct (handleKeyUp_fields t1 (advance t1 pressed1)) as (_ & _ & U3 & _).
  destruct (handleKeyUp_with_context t1 _ B2) as (U4 & U5).
  rewrite up1. cbn [dispatch]. split; [congruence|].
  exists (next_timer (advance t1 pressed1)). split; [exact U5|].
  rewrite U4. apply in_or_app. right. now left.
Qed.

Lemma repress_pressed2 :
  signalActive pressed2 = true
  /\ gain (audio pressed2) = true
  /\ exists n, In (mkTimer n (t1 + 50) Teardown) (timers pressed2).
Proof.
  destruct repress_released1 as (R1 & n & R2 & R3).
  destruct (advance_fields t2 released1) as (A1 & _ & A3 & _).
  rewrite R1 in A1. rewrite R2 in A3.
  destruct (handleKeyDown_audio t2 _ A1) as (D1 & _ & D3 & _ & D5).
  rewrite A3, advance_timers in D5.
  rewrite down2. cbn [dispatch]. split; [exact D1|]. split; [exact D3|].
  exists n. rewrite D5. apply filter_In. split.
  - apply filter_In. split; [exact R3|].
    unfold is_due. cbn [due]. apply negb_true_iff, Z.leb_gt. exact soon.
  - cbn [tid]. apply negb_true_iff, Nat.eqb_neq. apply Nat.neq_succ_diag_r.
Qed.

Lemma repress_final :
  signalActive (advance T pressed2) = true
  /\ gain (audio (advance T pressed2)) = true
  /\ oscillator (audio (advance T pressed2)) = false.
Proof.
  destruct repress_pressed2 as (P1 & P2 & n & P3).
  destruct (advance_audio T pressed2) as (A1 & _ & A3 & _).
  split; [congruence|]. split; [congruence|].
  apply (teardown_due_drops T pressed2 _ P3); [reflexivity | exact later].
Qed.

End Repress.

(** X14.  The teardown of a release is not cancelled by a new press: when
    the key is pressed again less than 50ms after a release (mute flag
    clear), the pending teardown drops the oscillator that the new press
    started, so [this.oscillator] is null while the signal flag is set and
    the gain target is up. *)
Theorem repress_loses_oscillator (st : state) (t0 t1 t2 T : Z) :
  isMuted st = false ->
  t0 <= t1 -> t1 <= t2 -> t2 < t1 + 50 -> t1 + 50 <= T ->
  signalActive
    (advance T (run [(t0, MouseDown); (t1, MouseUp); (t2, MouseDown)] st)) = true
  /\ gain (audio
       (advance T (run [(t0, MouseDown); (t1, MouseUp); (t2, MouseDown)] st))) = true
  /\ oscillator (audio
       (advance T (run [(t0, MouseDown); (t1, MouseUp); (t2, MouseDown)] st))) = false.
Proof.
  intros Hm _ _ Hsoon Hlater. rewrite !run_cons, run_nil.
  exact (repress_final st t0 t1 t2 T Hm Hsoon Hlater _ _ _ eq_refl eq_refl eq_refl).
Qed.

Lemma repress_loses_oscillator_witness :
  oscillator (audio
    (advance 150 (run [(0, MouseDown); (100, MouseUp); (120, MouseDown)] initial)))
  = false.
Proof.
  exact (proj2 (proj2
           (repress_loses_oscillator initial 0 100 120 150
              eq_refl ltac:(lia) ltac:(lia) ltac:(lia) ltac:(lia)))).
Defined.

(** *** The shape of the keyed field *)

Lemma concat_snoc groups b :
  groups <> [] ->
  String.concat " " (groups ++ [b]) = String.concat " " groups ++ " " ++ b.
Proof.
  induction groups as [|x [|y r] IH]; intros Hne; [congruence|reflexivity|].
  change (String.concat " " ((x :: y :: r) ++ [b]))
    with (x ++ " " ++ String.concat " " ((y :: r) ++ [b])).
  rewrite IH by discriminate.
  change (String.concat " " (x :: y :: r))
    with (x ++ " " ++ String.concat " " (y :: r)).
  now rewrite !append_assoc.
Qed.

Lemma all_units_impl (p q : ascii -> bool) s :
  (forall c, p c = true -> q c = true) ->
  all_units p s = true -> all_units q s = true.
Proof.
  intros Hpq. induction s as [|c r IH]; [trivial|]. cbn [all_units].
  intros H. apply andb_true_iff in H. destruct H as [Hc Hr].
  now rewrite (Hpq _ Hc), IH.
Qed.

Lemma dot_or_dash_cases c : dot_or_dash c = true -> c = "."%char \/ c = "-"%char.
Proof.
  unfold dot_or_dash. intros H. apply orb_true_iff in H.
  destruct H as [H | H]; apply Ascii.eqb_eq in H; auto.
Qed.

(** A group is a token, and it names no inherited member. *)
Lemma group_plain g :
  is_group g = true -> solid g = true /\ Object_prototype g = VUndefined.
Proof.
  unfold is_group. intros H. apply andb_true_iff in H. destruct H as [Hn Hd].
  split.
  - apply (all_units_impl dot_or_dash); [|exact Hd].
    intros c Hc. destruct (dot_or_dash_cases c Hc) as [-> | ->]; reflexivity.
  - destruct g as [|c r]; [discriminate Hn|].
    cbn [all_units] in Hd. apply andb_true_iff in Hd. destruct Hd as [Hc _].
    destruct (dot_or_dash_cases c Hc) as [-> | ->]; reflexivity.
Qed.

Lemma groups_nonempty_field groups :
  forallb is_group groups = true -> groups <> [] ->
  String.concat " " groups <> "".
Proof.
  destruct groups as [|g r]; [congruence|]. cbn [forallb]. intros H _.
  apply andb_true_iff in H. destruct H as [Hg _].
  apply concat_nonempty_head. unfold is_group in Hg.
  apply andb_true_iff in Hg. destruct Hg as [Hn _].
  intros ->. discriminate Hn.
Qed.

Lemma keyed_shape_commit st : keyed_shape st -> keyed_shape (commit st).
Proof.
  destruct st as [m mu sa lp cs ref au ts nx]. unfold keyed_shape, commit. cbn.
  intros [(groups & Hm & Hg) Hb].
  destruct cs as [|c r]; cbn; [split; [exists groups; split; assumption | exact Hb]|].
  split; [|reflexivity].
  assert (Hgrp : is_group (String c r) = true) by (unfold is_group; now rewrite Hb).
  destruct m as [|d m']; cbn.
  - exists [String c r]. split; [reflexivity|]. cbn [forallb]. now rewrite Hgrp.
  - exists (groups ++ [String c r])%list. split.
    + rewrite concat_snoc; [now rewrite <- Hm|]. intros ->. discriminate Hm.
    + rewrite forallb_app, Hg. cbn [forallb]. now rewrite Hgrp.
Qed.

Lemma keyed_shape_teardown st : keyed_shape st -> keyed_shape (teardown st).
Proof.
  unfold keyed_shape. destruct (teardown_frame st) as (T1 & T2 & _).
  now rewrite T1, T2.
Qed.

Lemma keyed_shape_run_timers batch : forall st,
  keyed_shape st -> keyed_shape (fold_left run_timer batch st).
Proof.
  induction batch as [|t r IH]; intros st H; [exact H|].
  cbn [fold_left]. apply IH. unfold run_timer.
  destruct (cb t); [now apply keyed_shape_commit | now apply keyed_shape_teardown].
Qed.

Lemma keyed_shape_advance now st : keyed_shape st -> keyed_shape (advance now st).
Proof. intros H. unfold advance. apply keyed_shape_run_timers. exact H. Qed.

Lemma keyed_shape_handleKeyUp now st :
  keyed_shape st -> keyed_shape (handleKeyUp now st).
Proof.
  unfold keyed_shape. destruct (handleKeyUp_fields now st) as (U1 & U2 & _).
  rewrite U1, U2. intros [Hf Hb]. split; [exact Hf|].
  rewrite all_units_app, Hb. apply symbol_is_dot_or_dash.
Qed.

Lemma keyed_shape_handleKeyDown now st :
  keyed_shape st -> keyed_shape (handleKeyDown now st).
Proof.
  destruct (isMuted st) eqn:Hm.
  - unfold handleKeyDown. now rewrite Hm.
  - unfold keyed_shape.
    destruct (handleKeyDown_unmuted now st Hm) as (D1 & D2 & _).
    now rewrite D1, D2.
Qed.

Lemma keyed_shape_run trace : forall st,
  forallb (fun te => key_event (snd te)) trace = true ->
  keyed_shape st -> keyed_shape (run trace st).
Proof.
  induction trace as [|[now e] rest IH]; intros st Ht H; [exact H|].
  cbn [forallb snd] in Ht. apply andb_true_iff in Ht. destruct Ht as [He Hr].
  rewrite run_cons. apply IH; [exact Hr|].
  pose proof (keyed_shape_advance now st H) as Ha.
  destruct e; try discriminate He; cbn [dispatch].
  - now apply keyed_shape_handleKeyDown.
  - now apply keyed_shape_handleKeyUp.
  - destruct (signalActive (advance now st)); [now apply keyed_shape_handleKeyUp | exact Ha].
  - now apply keyed_shape_handleKeyDown.
  - now apply keyed_shape_handleKeyUp.
  - exact Ha.
Qed.

(** X15.  As long as the Morse field is filled by the key alone, it is a
    list of non-empty dot-and-dash groups joined by single spaces, with no
    leading, trailing or doubled space; so [decodeMorse] turns it into
    exactly one character per committed group. *)
Theorem keyed_field_decodes (trace : list (Z * event)) :
  forallb (fun te => key_event (snd te)) trace = true ->
  exists groups,
    inputMorse (run trace initial) = String.concat " " groups
    /\ forallb is_group groups = true
    /\ (groups <> [] ->
        String.length (decodeMorse (inputMorse (run trace initial)))
        = length groups).
Proof.
  intros Ht.
  assert (H0 : keyed_shape initial).
  { split; [exists []; split; reflexivity | reflexivity]. }
  destruct (keyed_shape_run trace initial Ht H0) as [(groups & Hm & Hg) _].
  exists groups. split; [exact Hm|]. split; [exact Hg|]. intros Hne.
  assert (Hsolid : forallb solid groups = true).
  { clear - Hg. induction groups as [|g r IH]; [reflexivity|].
    cbn [forallb] in *. apply andb_true_iff in Hg. destruct Hg as [Hg Hr].
    now rewrite (proj1 (group_plain g Hg)), IH. }
  rewrite Hm. rewrite decodeMorse_one_per_token; rewrite (split_concat _ Hne Hsolid).
  - reflexivity.
  - clear - Hg. induction groups as [|g r IH]; constructor.
    + cbn [forallb] in Hg. apply andb_true_iff in Hg.
      apply (group_plain g), Hg.
    + apply IH. cbn [forallb] in Hg. now apply andb_true_iff in Hg.
Qed.

Lemma keyed_field_decodes_witness :
  exists groups,
    inputMorse
      (run [(0, MouseDown); (100, MouseUp); (900, MouseDown); (1200, MouseUp);
            (1300, MouseDown); (1400, MouseLeave); (2100, ToggleMute)] initial)
    = String.concat " " groups
    /\ forallb is_group groups = true
    /\ (groups <> [] ->
        String.length
          (decodeMorse
             (inputMorse
                (run [(0, MouseDown); (100, MouseUp); (900, MouseDown);
                      (1200, MouseUp); (1300, MouseDown); (1400, MouseLeave);
                      (2100, ToggleMute)] initial)))
        = length groups).
Proof.
  exact (keyed_field_decodes
           [(0, MouseDown); (100, MouseUp); (900, MouseDown); (1200, MouseUp);
            (1300, MouseDown); (1400, MouseLeave); (2100, ToggleMute)] eq_refl).
Defined.

(** *** The pointer leaves the key and comes back *)

Lemma leave_while_pressed now st :
  signalActive st = true ->
  dispatch now MouseLeave st = handleKeyUp now st.
Proof. intros H. cbn [dispatch]. now rewrite H. Qed.

(** X16.  The release is not guarded the way the pointer leaving the key
    is: when the pointer leaves a pressed key (mute flag clear) and the
    button is released over the key afterwards, the single press keys two
    symbols, both timed from the same key-down. *)
Theorem leave_then_release_keys_twice (st : state) (t0 t1 t2 : Z) :
  isMuted st = false ->
  t0 <= t1 -> t1 <= t2 ->
  sent (run [(t0, MouseDown); (t1, MouseLeave); (t2, MouseUp)] st)
  = sent st ++ symbol_of (t1 - t0) ++ symbol_of (t2 - t0).
Proof.
  intros Hm _ _. rewrite !run_cons, run_nil.
  destruct (advance_fields t0 st) as (A1 & _). rewrite Hm in A1.
  remember (advance t0 st) as a0 eqn:Ea0.
  assert (Sa0 : sent a0 = sent st) by (subst a0; apply sent_advance).
  change (dispatch t0 MouseDown a0) with (handleKeyDown t0 a0).
  destruct (handleKeyDown_unmuted t0 a0 A1) as (_ & _ & _ & D4 & D5 & _).
  pose proof (sent_handleKeyDown t0 a0) as Sp.
  remember (handleKeyDown t0 a0) as p1 eqn:Ep1.
  destruct (advance_audio t1 p1) as (B1 & _).
  destruct (advance_fields t1 p1) as (_ & B2 & _).
  pose proof (sent_advance t1 p1) as Sa1.
  remember (advance t1 p1) as a1 eqn:Ea1.
  rewrite (leave_while_pressed t1 a1) by congruence.
  pose proof (sent_handleKeyUp t1 a1) as Sl.
  destruct (handleKeyUp_fields t1 a1) as (_ & _ & _ & _ & L5 & _).
  remember (handleKeyUp t1 a1) as l1 eqn:El1.
  destruct (advance_fields t2 l1) as (_ & C2 & _).
  pose proof (sent_advance t2 l1) as Sa2.
  remember (advance t2 l1) as a2 eqn:Ea2.
  change (dispatch t2 MouseUp a2) with (handleKeyUp t2 a2).
  rewrite sent_handleKeyUp, Sa2, Sl, Sa1, Sp, Sa0.
  rewrite C2, L5, B2, D5.
  apply append_assoc.
Qed.

Lemma leave_then_release_keys_twice_witness :
  sent (run [(0, MouseDown); (100, MouseLeave); (300, MouseUp)] initial)
  = sent initial ++ symbol_of (100 - 0) ++ symbol_of (300 - 0).
Proof.
  exact (leave_then_release_keys_twice initial 0 100 300
           eq_refl ltac:(lia) ltac:(lia)).
Defined.

End KeyerInvariants.
